(** * calculator.py: lexer, operator-precedence parser and tree evaluator

    A shallow embedding of [src/calculator.py].  Python objects are modelled
    as follows.

    - A [str] is a [string]; its characters are read as the code points
      U+0000 to U+00FF.
    - A [float] is a primitive binary64 float ([PrimFloat.float]).
    - A [dict] with string keys is a [gmap string _], a [set] of strings a
      [gset string].
    - A [list] used as a stack keeps its top (the Python end of the list) at
      the head of the Rocq list.
    - A raised exception is the left injection of [result]; messages are kept
      for the exceptions that the program raises itself.
    - A [complex], which only a power can bring in, is its two floats.
    - The C library behind [math], the power [**] and the arithmetic of
      complex numbers are parameters ([Extern]). *)

From Stdlib Require Import ZArith Floats Ascii String List Bool Lia.
From stdpp Require Import base strings gmap.
Import ListNotations.

Local Open Scope list_scope.

(** ** Values and exceptions *)

(** The values a [Node.value] field may hold ([Optional[Union[float, str]]]);
    they are also the values that evaluation hands around, to which a power
    of a negative float adds the complex numbers. *)
Inductive pyval : Type :=
| VNone
| VFloat (x : float)
| VStr (s : string)
| VComplex (re im : float).

Inductive exn : Type :=
| ValueError (msg : string)
| IndexError (msg : string)
| KeyError (key : pyval)
| NameError (name : string)
| OverflowError (msg : string)
| ZeroDivisionError (msg : string)
| TypeError
| AttributeError.

Definition result (A : Type) : Type := (exn + A)%type.

Definition bind {A B : Type} (m : result A) (k : A -> result B) : result B :=
  match m with
  | inl e => inl e
  | inr a => k a
  end.

Notation "'let*' x := m 'in' k" := (bind m (fun x => k))
  (at level 10, x name, m at level 100, k at level 200).
Notation "'let*' ( x , y ) := m 'in' k" := (bind m (fun '(x, y) => k))
  (at level 10, x name, y name, m at level 100, k at level 200).

(** The messages of the program's own [raise ValueError(...)]. *)
Definition msg_unbalanced : string := "Несбалансированные скобки".
Definition msg_tree : string := "Ошибка построения дерева".
Definition msg_bad_char : string := "Некорректный символ: ".
Definition msg_node_type : string := "Неизвестный тип узла: ".

(** ** Strings *)

Fixpoint str_drop (n : nat) (s : string) : string :=
  match n, s with
  | O, _ => s
  | S n', String _ s' => str_drop n' s'
  | S _, EmptyString => EmptyString
  end.

Fixpoint str_take (n : nat) (s : string) : string :=
  match n, s with
  | S n', String c s' => String c (str_take n' s')
  | _, _ => EmptyString
  end.

Fixpoint str_filter (p : ascii -> bool) (s : string) : string :=
  match s with
  | EmptyString => EmptyString
  | String c s' => if p c then String c (str_filter p s') else str_filter p s'
  end.

Fixpoint str_forall (p : ascii -> bool) (s : string) : bool :=
  match s with
  | EmptyString => true
  | String c s' => p c && str_forall p s'
  end.

(** [expression[position]] inside an f-string: the character as a string. *)
Definition str_at (s : string) (position : nat) : string :=
  str_take 1 (str_drop position s).

(** [s.startswith(k)] *)
Fixpoint begins_with (k s : string) : bool :=
  match k, s with
  | EmptyString, _ => true
  | String c k', String d s' => Ascii.eqb c d && begins_with k' s'
  | String _ _, EmptyString => false
  end.

(** [a in b] for strings: [a] occurs in [b] as a substring. *)
Fixpoint str_contains (a b : string) : bool :=
  begins_with a b ||
  match b with
  | EmptyString => false
  | String _ b' => str_contains a b'
  end.

(** The truth value of a string: empty strings are false. *)
Definition str_truthy (s : string) : bool :=
  match s with
  | EmptyString => false
  | String _ _ => true
  end.

(** ** Floats *)

(** [math.pi] and [math.e]. *)
Definition math_pi : float := 0x1.921fb54442d18p+1%float.
Definition math_e : float := 0x1.5bf0a8b145769p+1%float.

(** [float(text)] on a decimal literal.  The digits [N] and the number [k] of
    digits after the point give the rational [N / 10^k]; it is rounded to the
    nearest binary64, ties to even, through a quotient of at least 55 bits
    with a sticky bit. *)
Definition digit_value (c : ascii) : option Z :=
  match c with
  | "0"%char => Some 0%Z
  | "1"%char => Some 1%Z
  | "2"%char => Some 2%Z
  | "3"%char => Some 3%Z
  | "4"%char => Some 4%Z
  | "5"%char => Some 5%Z
  | "6"%char => Some 6%Z
  | "7"%char => Some 7%Z
  | "8"%char => Some 8%Z
  | "9"%char => Some 9%Z
  | _ => None
  end.

Definition is_digit (c : ascii) : bool :=
  match digit_value c with
  | Some _ => true
  | None => false
  end.

(** Reads a run of digits: the accumulated number, how many digits were read,
    and what follows them. *)
Fixpoint read_digits (acc : Z) (count : nat) (s : string) : Z * nat * string :=
  match s with
  | EmptyString => (acc, count, s)
  | String c s' =>
      match digit_value c with
      | Some d => read_digits (10 * acc + d)%Z (S count) s'
      | None => (acc, count, s)
      end
  end.

Definition round_ratio (N D : Z) : float :=
  if (N =? 0)%Z then 0%float
  else
    let s := (57 + Z.log2 D - Z.log2 N)%Z in
    let num := if (0 <=? s)%Z then (N * 2 ^ s)%Z else N in
    let den := if (0 <=? s)%Z then D else (D * 2 ^ (- s))%Z in
    let q := (num / den)%Z in
    let sticky := if (num mod den =? 0)%Z then 0%Z else 1%Z in
    SF2Prim (SpecFloat.binary_normalize 53 1024 (2 * q + sticky) (- s - 1) false).

(** The lexer only produces [\d+(?:\.\d+)?] as NUMBER text.  Python's [float]
    accepts more spellings (signs, exponents, underscores, surrounding blanks,
    [inf], [nan]); this model raises [ValueError] on every text that is not a
    plain decimal literal. *)
Definition py_float (text : string) : result float :=
  let bad := inl (ValueError ("could not convert string to float: " +:+ text)) in
  match read_digits 0 0 text with
  | (_, O, _) => bad
  | (n, S _, EmptyString) => inr (round_ratio n 1)
  | (n, S _, String "."%char frac) =>
      match read_digits n 0 frac with
      | (_, O, _) => bad
      | (m, S k, EmptyString) => inr (round_ratio m (10 ^ Z.of_nat (S k)))
      | (_, S _, String _ _) => bad
      end
  | (_, S _, String _ _) => bad
  end.

(** ** Regular expressions

    The fragment of [re] that the token patterns use, with the matching order
    of a backtracking matcher: the left alternative first, greedy repetition
    and option, and the rest of the pattern as a continuation. *)

Inductive regex : Type :=
| RLit (text : string)
| RSet (member : ascii -> bool)
| RPlus (member : ascii -> bool)
| RSeq (r1 r2 : regex)
| RAlt (r1 r2 : regex)
| ROpt (r : regex).

Fixpoint lit_match {A : Type} (text s : string) (k : string -> option A)
  : option A :=
  match text with
  | EmptyString => k s
  | String c text' =>
      match s with
      | String d s' => if Ascii.eqb c d then lit_match text' s' k else None
      | EmptyString => None
      end
  end.

Fixpoint star_match {A : Type} (member : ascii -> bool) (s : string)
  (k : string -> option A) : option A :=
  match s with
  | String c s' =>
      if member c then
        match star_match member s' k with
        | Some x => Some x
        | None => k s
        end
      else k s
  | EmptyString => k s
  end.

Fixpoint re_match {A : Type} (r : regex) (s : string) (k : string -> option A)
  : option A :=
  match r with
  | RLit text => lit_match text s k
  | RSet member =>
      match s with
      | String c s' => if member c then k s' else None
      | EmptyString => None
      end
  | RPlus member =>
      match s with
      | String c s' => if member c then star_match member s' k else None
      | EmptyString => None
      end
  | RSeq r1 r2 => re_match r1 s (fun s' => re_match r2 s' k)
  | RAlt r1 r2 =>
      match re_match r1 s k with
      | Some x => Some x
      | None => re_match r2 s k
      end
  | ROpt r' =>
      match re_match r' s k with
      | Some x => Some x
      | None => k s
      end
  end.

(** [pattern.match(expression, position)]: the matched text ([group()]) and
    the position after it ([end()]). *)
Definition pattern_match (pattern : regex) (expression : string)
  (position : nat) : option (string * nat) :=
  let rest := str_drop position expression in
  match re_match pattern rest Some with
  | Some rest' =>
      let n := String.length rest - String.length rest' in
      Some (str_take n rest, position + n)
  | None => None
  end.

(** [\s] on a [str] pattern: the white space of U+0000 to U+00FF. *)
Definition is_space (c : ascii) : bool :=
  let n := nat_of_ascii c in
  ((9 <=? n) && (n <=? 13)) || ((28 <=? n) && (n <=? 32))
  || (n =? 133) || (n =? 160).

(** A bracketed class [[...]]: the characters listed. *)
Fixpoint one_of (chars : string) (c : ascii) : bool :=
  match chars with
  | EmptyString => false
  | String d chars' => Ascii.eqb d c || one_of chars' c
  end.

(** ** Lexer *)

Definition token : Type := (string * string)%type.

Definition function_keywords : list string :=
  ["sin"; "cos"; "tan"; "sqrt"; "log"; "exp"; "abs"].

Definition number_pattern : regex :=
  RSeq (RPlus is_digit) (ROpt (RSeq (RLit ".") (RPlus is_digit))).

Definition function_pattern : regex :=
  RAlt (RLit "sin") (RAlt (RLit "cos") (RAlt (RLit "tan") (RAlt (RLit "sqrt")
    (RAlt (RLit "log") (RAlt (RLit "exp") (RLit "abs")))))).

Definition constant_pattern : regex := RAlt (RLit "pi") (RLit "e").

Definition operator_pattern : regex := RSet (one_of "+-*/^").

Definition paren_pattern : regex := RSet (one_of "()").

Definition space_pattern : regex := RPlus is_space.

Definition create_token_patterns : list (regex * option string) :=
  [ (number_pattern, Some "NUMBER");
    (function_pattern, Some "FUNCTION");
    (constant_pattern, Some "CONSTANT");
    (operator_pattern, Some "OPERATOR");
    (paren_pattern, Some "PAREN");
    (space_pattern, None) ].

(** [re.compile] keeps the pattern; the patterns above are already parsed. *)
Definition get_compiled_patterns : list (regex * option string) :=
  map (fun '(pattern, token_type) => (pattern, token_type))
    create_token_patterns.

Fixpoint match_token_at_position (expression : string) (position : nat)
  (patterns : list (regex * option string))
  : option (option string * string * nat) :=
  match patterns with
  | [] => None
  | (pattern, token_type) :: patterns' =>
      match pattern_match pattern expression position with
      | None => match_token_at_position expression position patterns'
      | Some (value, match_end) => Some (token_type, value, match_end)
      end
  end.

(** [if token_type:] is false for [None] and for the empty string. *)
Definition token_type_truthy (token_type : option string) : option string :=
  match token_type with
  | Some t => if str_truthy t then Some t else None
  | None => None
  end.

(** The [while position < len(expression)] loop.  Each turn takes one unit of
    [fuel]; [None] is the loop that has not ended within the fuel. *)
Fixpoint tokenize_loop (fuel : nat) (expression : string)
  (patterns : list (regex * option string)) (position : nat)
  (tokens : list token) : option (result (list token)) :=
  match fuel with
  | O => None
  | S fuel' =>
      if position <? String.length expression then
        match match_token_at_position expression position patterns with
        | Some (token_type, value, new_position) =>
            let tokens' :=
              match token_type_truthy token_type with
              | Some t => tokens ++ [(t, value)]
              | None => tokens
              end in
            tokenize_loop fuel' expression patterns new_position tokens'
        | None =>
            Some (inl (ValueError (msg_bad_char +:+ str_at expression position)))
        end
      else Some (inr tokens)
  end.

(** A match ends at or after its start, so a loop that ever ends does so
    within [len(expression)] turns and one last test. *)
Definition tokenize_expression (expression : string)
  (patterns : list (regex * option string)) : option (result (list token)) :=
  tokenize_loop (S (String.length expression)) expression patterns 0 [].

(** ** Nodes *)

(** [class Node]: a type tag, a value and two optional children. *)
#[local] Unset Elimination Schemes.
Inductive Node : Type :=
  mkNode {
    node_type : string;
    node_value : pyval;
    node_left : option Node;
    node_right : option Node
  }.
#[local] Set Elimination Schemes.

(** ** The C library and the arithmetic of the interpreter *)

(** A float or a complex number: the operands of the interpreter's
    arithmetic. *)
Inductive number : Type :=
| NFloat (x : float)
| NComplex (re im : float).

(** The two exceptions of a power: zero raised to a negative power, and a
    result out of range. *)
Inductive arith_error : Type :=
| ZeroDivision (msg : string)
| Overflow (msg : string).

(** What the program takes from outside.

    - The C functions behind [math.sin], [math.cos], [math.tan], [math.log]
      and [math.exp].
    - [a ** b] on two floats: a float, a complex number for a negative base
      with a fractional exponent, [ZeroDivisionError] for zero to a negative
      power, [OverflowError] for a result out of range.
    - The arithmetic in which an operand is complex and the other a float or
      a complex number.  Sum, difference and product never raise; nor does
      the quotient, which the program only asks for after [b != 0]; the
      power raises like the float power; [abs] raises [OverflowError] when
      the modulus is out of range ([None] here). *)
Record Extern : Type :=
  mkExtern {
    libm_sin : float -> float;
    libm_cos : float -> float;
    libm_tan : float -> float;
    libm_log : float -> float;
    libm_exp : float -> float;
    float_pow : float -> float -> arith_error + number;
    complex_add : number -> number -> float * float;
    complex_sub : number -> number -> float * float;
    complex_mul : number -> number -> float * float;
    complex_div : number -> number -> float * float;
    complex_pow : number -> number -> arith_error + float * float;
    complex_abs : float -> float -> option float
  }.

(** The wrapper of the [math] module around a C function of one argument: a
    NaN from an argument that is not NaN is a domain error, an infinity from a
    finite argument is a range or a domain error.  ([errno] is not modelled.) *)
Definition math_1 (func : float -> float) (can_overflow : bool) (x : float)
  : result float :=
  let r := func x in
  if is_nan r && negb (is_nan x) then inl (ValueError "math domain error")
  else if is_infinity r && is_finite x then
    if can_overflow then inl (OverflowError "math range error")
    else inl (ValueError "math domain error")
  else inr r.

(** The logarithm that [math.log] hands to the wrapper: the C function is
    only called on a finite positive argument. *)
Definition m_log (c_log : float -> float) (x : float) : float :=
  if is_finite x then
    if (0 <? x)%float then c_log x
    else if (x =? 0)%float then neg_infinity
    else nan
  else if is_nan x then x
  else if (0 <? x)%float then x
  else nan.

Definition binary_behavior : Type := pyval -> pyval -> result pyval.
Definition unary_behavior : Type := pyval -> result pyval.

(** A function of the [math] module applied to a value. *)
Definition on_float (f : float -> result float) : unary_behavior :=
  fun v =>
    match v with
    | VFloat x => let* r := f x in inr (VFloat r)
    | _ => inl TypeError
    end.

(** ** Symbol tables *)

Definition create_constants_map : gmap string float :=
  {[ "pi" := math_pi; "e" := math_e ]}.

Definition as_number (v : pyval) : option number :=
  match v with
  | VFloat x => Some (NFloat x)
  | VComplex re im => Some (NComplex re im)
  | _ => None
  end.

Definition of_number (n : number) : pyval :=
  match n with
  | NFloat x => VFloat x
  | NComplex re im => VComplex re im
  end.

Definition of_complex (z : float * float) : pyval := VComplex z.1 z.2.

Definition raised (e : arith_error) : exn :=
  match e with
  | ZeroDivision msg => ZeroDivisionError msg
  | Overflow msg => OverflowError msg
  end.

(** An arithmetic operator on two values: on two floats, on two numbers of
    which one is complex, and [TypeError] on anything else. *)
Definition arithmetic (on_floats : float -> float -> result pyval)
  (on_complex : number -> number -> result pyval) : binary_behavior :=
  fun a b =>
    match a, b with
    | VFloat x, VFloat y => on_floats x y
    | _, _ =>
        match as_number a, as_number b with
        | Some m, Some n => on_complex m n
        | _, _ => inl TypeError
        end
    end.

Definition op_add (X : Extern) : binary_behavior :=
  fun a b =>
    match a, b with
    | VStr s, VStr t => inr (VStr (s +:+ t))
    | _, _ =>
        arithmetic (fun x y => inr (VFloat (x + y)))
          (fun m n => inr (of_complex (complex_add X m n))) a b
    end.

Definition op_sub (X : Extern) : binary_behavior :=
  arithmetic (fun x y => inr (VFloat (x - y)))
    (fun m n => inr (of_complex (complex_sub X m n))).

Definition op_mul (X : Extern) : binary_behavior :=
  arithmetic (fun x y => inr (VFloat (x * y)))
    (fun m n => inr (of_complex (complex_mul X m n))).

(** [b != 0]: a float can be equal to [0], and a complex number whose two
    parts are. *)
Definition differs_from_zero (b : pyval) : bool :=
  match b with
  | VFloat y => negb (y =? 0)%float
  | VComplex re im => negb ((re =? 0)%float && (im =? 0)%float)
  | _ => true
  end.

(** [a / b if b != 0 else float('inf')] *)
Definition op_div (X : Extern) : binary_behavior :=
  fun a b =>
    if differs_from_zero b then
      arithmetic (fun x y => inr (VFloat (x / y)))
        (fun m n => inr (of_complex (complex_div X m n))) a b
    else inr (VFloat infinity).

(** [a ** b] *)
Definition op_pow (X : Extern) : binary_behavior :=
  arithmetic
    (fun x y =>
       match float_pow X x y with
       | inl e => inl (raised e)
       | inr n => inr (of_number n)
       end)
    (fun m n =>
       match complex_pow X m n with
       | inl e => inl (raised e)
       | inr z => inr (of_complex z)
       end).

Definition create_operations_map (X : Extern) : gmap string binary_behavior :=
  {[ "+" := op_add X; "-" := op_sub X; "*" := op_mul X; "/" := op_div X;
     "^" := op_pow X ]}.

(** [math.sqrt(x) if x >= 0 else float('nan')] *)
Definition fn_sqrt : unary_behavior :=
  fun v =>
    match v with
    | VFloat x =>
        if (0 <=? x)%float then inr (VFloat (PrimFloat.sqrt x))
        else inr (VFloat nan)
    | _ => inl TypeError
    end.

(** The built-in [abs]: the modulus of a complex number is a float. *)
Definition fn_abs (X : Extern) : unary_behavior :=
  fun v =>
    match v with
    | VFloat x => inr (VFloat (PrimFloat.abs x))
    | VComplex re im =>
        match complex_abs X re im with
        | Some r => inr (VFloat r)
        | None => inl (OverflowError "absolute value too large")
        end
    | _ => inl TypeError
    end.

Definition math_sin (X : Extern) : float -> result float :=
  math_1 (libm_sin X) false.
Definition math_cos (X : Extern) : float -> result float :=
  math_1 (libm_cos X) false.
Definition math_tan (X : Extern) : float -> result float :=
  math_1 (libm_tan X) false.
Definition math_log (X : Extern) : float -> result float :=
  math_1 (m_log (libm_log X)) false.
Definition math_exp (X : Extern) : float -> result float :=
  math_1 (libm_exp X) true.

Definition create_functions_map (X : Extern) : gmap string unary_behavior :=
  {[ "sin" := on_float (math_sin X);
     "cos" := on_float (math_cos X);
     "tan" := on_float (math_tan X);
     "sqrt" := fn_sqrt;
     "log" := on_float (math_log X);
     "exp" := on_float (math_exp X);
     "abs" := fn_abs X ]}.

Definition create_precedence_map : gmap string Z :=
  {[ "+" := 1%Z; "-" := 1%Z; "*" := 2%Z; "/" := 2%Z; "^" := 3%Z;
     "u-" := 4%Z; "u+" := 4%Z ]}.

Definition create_right_associative_set : gset string :=
  {[ "^"; "u-"; "u+" ]}.

(** [key in d] *)
Definition dict_has {V : Type} (d : gmap string V) (key : string) : bool :=
  match d !! key with
  | Some _ => true
  | None => false
  end.

(** [d[key]] for a key that is any value: only a string can be present. *)
Definition dict_get {V : Type} (d : gmap string V) (key : pyval) : result V :=
  match key with
  | VStr s =>
      match d !! s with
      | Some v => inr v
      | None => inl (KeyError key)
      end
  | _ => inl (KeyError key)
  end.

(** ** Parser *)

Definition create_number_node (value : string) : result Node :=
  let* x := py_float value in
  inr (mkNode "NUMBER" (VFloat x) None None).

Definition create_constant_node (value : string) (constants : gmap string float)
  : result Node :=
  match constants !! value with
  | Some x => inr (mkNode "NUMBER" (VFloat x) None None)
  | None => inl (KeyError (VStr value))
  end.

Definition should_be_unary (current_token_type current_token_value : string)
  (previous_token_type previous_token_value : option string) : bool :=
  let sign :=
    String.eqb current_token_type "OPERATOR"
    && str_contains current_token_value "+-" in
  match previous_token_type with
  | None => sign
  | Some previous_type =>
      if String.eqb previous_type "PAREN"
         && match previous_token_value with
            | Some v => String.eqb v "("
            | None => false
            end
      then sign
      else if String.eqb previous_type "OPERATOR" then sign
      else false
  end.

Definition process_unary_operator (token_value : string) : string :=
  if String.eqb token_value "-" then "u-" else "u+".

Definition create_operator_node (operator : string) (left right : Node) : Node :=
  mkNode "OPERATOR" (VStr operator) (Some left) (Some right).

Definition create_function_node (func_name : string) (argument : Node) : Node :=
  mkNode "FUNCTION" (VStr func_name) (Some argument) None.

Definition create_unary_node (operator : string) (argument : Node) : Node :=
  mkNode "UNARY" (VStr operator) (Some argument) None.

(** [precedence[current_operator]] is only read once the top of the stack is
    known to have a precedence; a current operator without one is a
    [KeyError]. *)
Definition can_pop_operator (current_operator : string)
  (operator_stack : list string) (precedence : gmap string Z)
  (right_associative : gset string) : result bool :=
  match operator_stack with
  | [] => inr false
  | top_operator :: _ =>
      if String.eqb top_operator "(" then inr false
      else
        match precedence !! top_operator with
        | None => inr false
        | Some top_rank =>
            match precedence !! current_operator with
            | None => inl (KeyError (VStr current_operator))
            | Some current_rank =>
                if (current_rank <? top_rank)%Z then inr true
                else if (top_rank =? current_rank)%Z then
                  inr (negb (bool_decide (current_operator ∈ right_associative)))
                else inr false
            end
        end
  end.

Definition pop_error : exn := IndexError "pop from empty list".

(** [output_stack.pop()] *)
Definition pop_node (output_stack : list Node) : result (Node * list Node) :=
  match output_stack with
  | [] => inl pop_error
  | node :: rest => inr (node, rest)
  end.

(** The body of [pop_operator_and_create_node] once the operator is popped:
    the output stack with the new node on it. *)
Definition create_node_for {V : Type} (operator : string)
  (output_stack : list Node) (functions : gmap string V) : result (list Node) :=
  if dict_has functions operator then
    let* (arg, out) := pop_node output_stack in
    inr (create_function_node operator arg :: out)
  else if String.eqb operator "u-" || String.eqb operator "u+" then
    let* (arg, out) := pop_node output_stack in
    inr (create_unary_node operator arg :: out)
  else
    let* (right, out) := pop_node output_stack in
    let* (left, out') := pop_node out in
    inr (create_operator_node operator left right :: out').

(** Both stacks after the call. *)
Definition pop_operator_and_create_node {V : Type}
  (operator_stack : list string) (output_stack : list Node)
  (functions : gmap string V) (precedence : gmap string Z)
  : result (list string * list Node) :=
  match operator_stack with
  | [] => inl pop_error
  | operator :: operator_stack' =>
      let* out := create_node_for operator output_stack functions in
      inr (operator_stack', out)
  end.

(** [while operator_stack and operator_stack[-1] != '(': pop...].  A pop
    leaves the tail of the operator stack, on which the loop goes on. *)
Fixpoint reduce_to_parenthesis {V : Type} (operator_stack : list string)
  (output_stack : list Node) (functions : gmap string V)
  (precedence : gmap string Z) : result (list string * list Node) :=
  match operator_stack with
  | [] => inr ([], output_stack)
  | top_operator :: operator_stack' =>
      if String.eqb top_operator "(" then inr (operator_stack, output_stack)
      else
        let* (_, out) :=
          pop_operator_and_create_node operator_stack output_stack
            functions precedence in
        reduce_to_parenthesis operator_stack' out functions precedence
  end.

Definition process_right_parenthesis {V : Type} (operator_stack : list string)
  (output_stack : list Node) (functions : gmap string V)
  (precedence : gmap string Z) : result (list string * list Node) :=
  let* (ops, out) :=
    reduce_to_parenthesis operator_stack output_stack functions precedence in
  match ops with
  | [] => inl (ValueError msg_unbalanced)
  | _ :: ops' =>
      match ops' with
      | func :: ops'' =>
          if dict_has functions func then
            let* (argument, out') := pop_node out in
            inr (ops'', create_function_node func argument :: out')
          else inr (ops', out)
      | [] => inr (ops', out)
      end
  end.

(** [while can_pop_operator(...): pop_operator_and_create_node(...)] *)
Fixpoint reduce_while_can_pop {V : Type} (token_value : string)
  (operator_stack : list string) (output_stack : list Node)
  (functions : gmap string V) (precedence : gmap string Z)
  (right_associative : gset string) : result (list string * list Node) :=
  let* go :=
    can_pop_operator token_value operator_stack precedence right_associative in
  if go : bool then
    match operator_stack with
    | [] => inr (operator_stack, output_stack)
    | _ :: operator_stack' =>
        let* (_, out) :=
          pop_operator_and_create_node operator_stack output_stack
            functions precedence in
        reduce_while_can_pop token_value operator_stack' out
          functions precedence right_associative
    end
  else inr (operator_stack, output_stack).

(** The last [while operator_stack:] loop. *)
Fixpoint reduce_all {V : Type} (operator_stack : list string)
  (output_stack : list Node) (functions : gmap string V)
  (precedence : gmap string Z) : result (list Node) :=
  match operator_stack with
  | [] => inr output_stack
  | top_operator :: operator_stack' =>
      if String.eqb top_operator "(" then inl (ValueError msg_unbalanced)
      else
        let* (_, out) :=
          pop_operator_and_create_node operator_stack output_stack
            functions precedence in
        reduce_all operator_stack' out functions precedence
  end.

(** The local variables of [build_syntax_tree] that live across tokens. *)
Record parser_state : Type :=
  mkState {
    output_stack : list Node;
    operator_stack : list string;
    previous_token_type : option string;
    previous_token_value : option string
  }.

Definition initial_state : parser_state := mkState [] [] None None.

(** One turn of [for token_type, token_value in tokens]. *)
Definition process_token {V : Type} (st : parser_state) (tok : token)
  (constants : gmap string float) (functions : gmap string V)
  (precedence : gmap string Z) (right_associative : gset string)
  : result parser_state :=
  let '(token_type, token_value) := tok in
  let out := output_stack st in
  let ops := operator_stack st in
  if String.eqb token_type "NUMBER" then
    let* node := create_number_node token_value in
    inr (mkState (node :: out) ops (Some token_type) (Some token_value))
  else if String.eqb token_type "CONSTANT" then
    let* node := create_constant_node token_value constants in
    inr (mkState (node :: out) ops (Some token_type) (Some token_value))
  else if String.eqb token_type "FUNCTION" then
    inr (mkState out (token_value :: ops) (Some token_type) (Some token_value))
  else if String.eqb token_type "OPERATOR" then
    let token_value :=
      if should_be_unary token_type token_value
           (previous_token_type st) (previous_token_value st)
      then process_unary_operator token_value
      else token_value in
    let* (ops', out') :=
      reduce_while_can_pop token_value ops out functions precedence
        right_associative in
    inr (mkState out' (token_value :: ops') (Some token_type) (Some token_value))
  else if String.eqb token_value "(" then
    inr (mkState out ("(" :: ops) (Some token_type) (Some token_value))
  else if String.eqb token_value ")" then
    let* (ops', out') :=
      process_right_parenthesis ops out functions precedence in
    inr (mkState out' ops' (Some token_type) (Some token_value))
  else inr (mkState out ops (Some token_type) (Some token_value)).

Fixpoint process_tokens {V : Type} (st : parser_state) (tokens : list token)
  (constants : gmap string float) (functions : gmap string V)
  (precedence : gmap string Z) (right_associative : gset string)
  : result parser_state :=
  match tokens with
  | [] => inr st
  | tok :: tokens' =>
      let* st' :=
        process_token st tok constants functions precedence right_associative in
      process_tokens st' tokens' constants functions precedence
        right_associative
  end.

Definition build_syntax_tree {V : Type} (tokens : list token)
  (constants : gmap string float) (functions : gmap string V)
  (precedence : gmap string Z) (right_associative : gset string)
  : result Node :=
  let* st :=
    process_tokens initial_state tokens constants functions precedence
      right_associative in
  let* out :=
    reduce_all (operator_stack st) (output_stack st) functions precedence in
  match out with
  | [node] => inr node
  | _ => inl (ValueError msg_tree)
  end.

(** ** Evaluator *)

(** The module-level names that the node evaluators read without having them
    as parameters: [operations] and [functions].  They are bound by the
    [if __name__ == "__main__":] block and unbound otherwise. *)
Record globals : Type :=
  mkGlobals {
    global_operations : option (gmap string binary_behavior);
    global_functions : option (gmap string unary_behavior)
  }.

Definition lookup_global {A : Type} (name : string) (binding : option A)
  : result A :=
  match binding with
  | Some v => inr v
  | None => inl (NameError name)
  end.

(** [node.value == None] is true for [None] only. *)
Definition evaluate_number_node (node : Node) : pyval :=
  match node_value node with
  | VNone => VFloat 0
  | v => v
  end.

(** [-argument_value] *)
Definition py_neg (v : pyval) : result pyval :=
  match v with
  | VFloat x => inr (VFloat (- x))
  | VComplex re im => inr (VComplex (- re) (- im))
  | _ => inl TypeError
  end.

(** [node.value == "u-"] *)
Definition value_is (v : pyval) (text : string) : bool :=
  match v with
  | VStr s => String.eqb s text
  | _ => false
  end.

Section node_evaluators.

Variable G : globals.

(** [evaluate_expression_tree] on a child, which may be [None]. *)
Variable evaluate_child :
  option Node -> gmap string binary_behavior -> gmap string unary_behavior ->
  result pyval.

(** [functions] is not a parameter here: it is the global of that name. *)
Definition evaluate_operator_node (node : Node)
  (operations : gmap string binary_behavior) : result pyval :=
  let* functions := lookup_global "functions" (global_functions G) in
  let* left_value := evaluate_child (node_left node) operations functions in
  let* functions := lookup_global "functions" (global_functions G) in
  let* right_value := evaluate_child (node_right node) operations functions in
  let* behavior := dict_get operations (node_value node) in
  behavior left_value right_value.

(** [operations] is not a parameter here: it is the global of that name. *)
Definition evaluate_function_node (node : Node)
  (functions : gmap string unary_behavior) : result pyval :=
  let* operations := lookup_global "operations" (global_operations G) in
  let* argument_value := evaluate_child (node_left node) operations functions in
  let* behavior := dict_get functions (node_value node) in
  behavior argument_value.

(** Neither table is a parameter here: both are globals. *)
Definition evaluate_unary_node (node : Node) : result pyval :=
  let* operations := lookup_global "operations" (global_operations G) in
  let* functions := lookup_global "functions" (global_functions G) in
  let* argument_value := evaluate_child (node_left node) operations functions in
  if value_is (node_value node) "u-" then py_neg argument_value
  else inr argument_value.

End node_evaluators.

Fixpoint evaluate_expression_tree (G : globals) (node : Node)
  (operations : gmap string binary_behavior)
  (functions : gmap string unary_behavior) {struct node} : result pyval :=
  let evaluate_child child ops fns :=
    match child with
    | Some n => evaluate_expression_tree G n ops fns
    | None => inl AttributeError
    end in
  if String.eqb (node_type node) "NUMBER" then
    inr (evaluate_number_node node)
  else if String.eqb (node_type node) "OPERATOR" then
    evaluate_operator_node G evaluate_child node operations
  else if String.eqb (node_type node) "FUNCTION" then
    evaluate_function_node G evaluate_child node functions
  else if String.eqb (node_type node) "UNARY" then
    evaluate_unary_node G evaluate_child node
  else inl (ValueError (msg_node_type +:+ node_type node)).

(** ** The pipeline *)

Definition calculate_expression (G : globals) (expression : string)
  (patterns : list (regex * option string))
  (constants : gmap string float)
  (functions : gmap string unary_behavior)
  (operations : gmap string binary_behavior)
  (precedence : gmap string Z) (right_associative : gset string)
  : option (result pyval) :=
  match tokenize_expression expression patterns with
  | None => None
  | Some (inl e) => Some (inl e)
  | Some (inr tokens) =>
      Some (let* tree :=
              build_syntax_tree tokens constants functions precedence
                right_associative in
            evaluate_expression_tree G tree operations functions)
  end.

(** The bindings of the [__main__] block. *)
Definition main_globals (X : Extern) : globals :=
  mkGlobals (Some (create_operations_map X)) (Some (create_functions_map X)).

(** No binding: the module imported by another program. *)
Definition no_globals : globals := mkGlobals None None.

(** [calculate_expression] as the [__main__] block calls it. *)
Definition run (X : Extern) (expression : string) : option (result pyval) :=
  calculate_expression (main_globals X) expression get_compiled_patterns
    create_constants_map (create_functions_map X) (create_operations_map X)
    create_precedence_map create_right_associative_set.

(** ** Tree printer *)

(** What a call has printed, line by line, and the exception that ended it,
    if any. *)
Definition output : Type := (list string * option exn)%type.

Definition out_line (line : string) : output := ([line], None).

(** One statement after another: the second runs if the first did not
    raise. *)
Definition out_then (first second : output) : output :=
  match first with
  | (lines, None) => (lines ++ second.1, second.2)
  | (lines, Some e) => (lines, Some e)
  end.

(** [" " * level] *)
Fixpoint spaces (level : nat) : string :=
  match level with
  | O => ""
  | S level' => String " " (spaces level')
  end.

Section node_printers.

(** [str] of a float, the shortest text that reads back as the same float,
    and [str] of a complex number are taken from outside. *)
Variable float_str : float -> string.
Variable complex_str : float -> float -> string.

(** [{node.value}] in an f-string. *)
Definition value_str (v : pyval) : string :=
  match v with
  | VNone => "None"
  | VFloat x => float_str x
  | VStr s => s
  | VComplex re im => complex_str re im
  end.

(** [print_tree_structure] on a child, which may be [None]. *)
Variable print_child : option Node -> nat -> output.

Definition print_number_node (node : Node) (indent : string) : output :=
  out_line (indent +:+ "NUMBER: " +:+ value_str (node_value node)).

Definition print_function_node (node : Node) (indent : string) : output :=
  out_then
    (out_line (indent +:+ "FUNCTION: " +:+ value_str (node_value node)))
    (print_child (node_left node) (String.length indent + 2)).

Definition print_unary_node (node : Node) (indent : string) : output :=
  out_then
    (out_line (indent +:+ "UNARY: " +:+ value_str (node_value node)))
    (print_child (node_left node) (String.length indent + 2)).

Definition print_operator_node (node : Node) (indent : string) : output :=
  out_then
    (out_line (indent +:+ "OPERATOR: " +:+ value_str (node_value node)))
    (out_then
       (print_child (node_left node) (String.length indent + 2))
       (print_child (node_right node) (String.length indent + 2))).

End node_printers.

Fixpoint print_tree_structure (float_str : float -> string)
  (complex_str : float -> float -> string) (node : Node) (level : nat)
  {struct node} : output :=
  let print_child child child_level :=
    match child with
    | Some n => print_tree_structure float_str complex_str n child_level
    | None => ([], Some AttributeError)
    end in
  let indent := spaces level in
  if String.eqb (node_type node) "NUMBER" then
    print_number_node float_str complex_str node indent
  else if String.eqb (node_type node) "FUNCTION" then
    print_function_node float_str complex_str print_child node indent
  else if String.eqb (node_type node) "UNARY" then
    print_unary_node float_str complex_str print_child node indent
  else print_operator_node float_str complex_str print_child node indent.

(** The nodes of a tree. *)
Fixpoint node_count (node : Node) : nat :=
  match node with
  | mkNode _ _ lchild rchild =>
      S (match lchild with Some n => node_count n | None => 0 end
         + match rchild with Some n => node_count n | None => 0 end)
  end.

(** ** Definitions used by the statements *)

(** [''.join(text for _, text in tokens)] *)
Fixpoint join_texts (tokens : list token) : string :=
  match tokens with
  | [] => ""
  | (_, text) :: tokens' => text +:+ join_texts tokens'
  end.

Definition not_space (c : ascii) : bool := negb (is_space c).

(** The input with its white space removed. *)
Definition without_whitespace (expression : string) : string :=
  str_filter not_space expression.

(** Every character that a pattern can consume satisfies [P]. *)
Fixpoint re_chars (P : ascii -> bool) (r : regex) : Prop :=
  match r with
  | RLit text => str_forall P text = true
  | RSet member | RPlus member => forall c, member c = true -> P c = true
  | RSeq r1 r2 | RAlt r1 r2 => re_chars P r1 /\ re_chars P r2
  | ROpt r' => re_chars P r'
  end.

(** A pattern that cannot match the empty string. *)
Fixpoint re_nonnull (r : regex) : bool :=
  match r with
  | RLit text => str_truthy text
  | RSet _ | RPlus _ => true
  | RSeq r1 r2 => re_nonnull r1 || re_nonnull r2
  | RAlt r1 r2 => re_nonnull r1 && re_nonnull r2
  | ROpt _ => false
  end.

(** Where a sign is read as unary: at the first token, after an opening
    parenthesis, after an operator. *)
Definition operator_position (previous_token_type previous_token_value
  : option string) : Prop :=
  previous_token_type = None
  \/ (previous_token_type = Some "PAREN" /\ previous_token_value = Some "(")
  \/ previous_token_type = Some "OPERATOR".

(** The same over the tokens that stand before the sign: there is none, or
    the last of them is an opening parenthesis or an operator. *)
Definition sign_position (before : list token) : Prop :=
  before = []
  \/ exists init kind text,
       before = init ++ [(kind, text)]
       /\ ((kind = "PAREN" /\ text = "(") \/ kind = "OPERATOR").

(** The keyword [k] of kind [kind] stands in front of [rest], and no pattern
    tried earlier matches there. *)
Definition keyword_at (kind k rest : string) : Prop :=
  (kind = "FUNCTION" /\ In k function_keywords)
  \/ (kind = "CONSTANT"
      /\ (k = "pi" \/ (k = "e" /\ begins_with "xp" rest = false))).

(** A stand-in for what is taken from outside.  It holds a few values of
    the C library which are exact in binary64, a power by repeated
    multiplication for small whole exponents, the sum, difference and product
    of complex numbers by parts, and NaN for the rest of their arithmetic.
    It instantiates the statements that assume such values. *)
Fixpoint known_value (table : list (float * float)) (x : float) : float :=
  match table with
  | [] => nan
  | (arg, val) :: table' =>
      if (x =? arg)%float then val else known_value table' x
  end.

Fixpoint pow_loop (fuel : nat) (a b acc : float) : float :=
  match fuel with
  | O => nan
  | S fuel' =>
      if (b =? 0)%float then acc else pow_loop fuel' a (b - 1) (acc * a)
  end.

Definition real_part (n : number) : float :=
  match n with
  | NFloat x => x
  | NComplex re _ => re
  end.

Definition imaginary_part (n : number) : float :=
  match n with
  | NFloat _ => 0
  | NComplex _ im => im
  end.

Definition exact_extern : Extern :=
  mkExtern
    (known_value [(0, 0); (math_pi / 2, 1)]%float)
    (known_value [(0, 1)]%float)
    (known_value [(0, 0)]%float)
    (known_value [(1, 0)]%float)
    (known_value [(0, 1)]%float)
    (fun a b => inr (NFloat (pow_loop 64 a b 1)))
    (fun m n =>
       (real_part m + real_part n, imaginary_part m + imaginary_part n)%float)
    (fun m n =>
       (real_part m - real_part n, imaginary_part m - imaginary_part n)%float)
    (fun m n =>
       (real_part m * real_part n - imaginary_part m * imaginary_part n,
        real_part m * imaginary_part n + imaginary_part m * real_part n)%float)
    (fun _ _ => (nan, nan))
    (fun _ _ => inr (nan, nan))
    (fun _ _ => Some nan).

(** [operations[symbol](a, b)] with the operator table of the program. *)
Definition apply_operator (X : Extern) (symbol : string) (a b : pyval)
  : result pyval :=
  let* behavior := dict_get (create_operations_map X) (VStr symbol) in
  behavior a b.

(** What [(x o1 y) o2 z] and [x o1 (y o2 z)] evaluate to. *)
Definition left_grouped (X : Extern) (o1 o2 : string) (x y z : float)
  : result pyval :=
  let* l := apply_operator X o1 (VFloat x) (VFloat y) in
  apply_operator X o2 l (VFloat z).

Definition right_grouped (X : Extern) (o1 o2 : string) (x y z : float)
  : result pyval :=
  let* r := apply_operator X o2 (VFloat y) (VFloat z) in
  apply_operator X o1 (VFloat x) r.

Definition binary_symbols : list string := ["+"; "-"; "*"; "/"; "^"].

(** [s] is one of [symbols]. *)
Definition one_of_strings (symbols : list string) (s : string) : bool :=
  existsb (String.eqb s) symbols.

(** Whether, in [a o1 b o2 c], the second operator takes [b] before the
    first does: it is the power, or it is a product or quotient after a sum
    or difference. *)
Definition binds_tighter (o1 o2 : string) : bool :=
  String.eqb o2 "^"
  || (one_of_strings ["*"; "/"] o2 && one_of_strings ["+"; "-"] o1).

(** The tokens of [a o1 b o2 c], of [(a o1 b) o2 c] and of
    [a o1 (b o2 c)]. *)
Definition three_operands (a o1 b o2 c : string) : list token :=
  [("NUMBER", a); ("OPERATOR", o1); ("NUMBER", b); ("OPERATOR", o2);
   ("NUMBER", c)].

Definition first_in_parentheses (a o1 b o2 c : string) : list token :=
  [("PAREN", "("); ("NUMBER", a); ("OPERATOR", o1); ("NUMBER", b);
   ("PAREN", ")"); ("OPERATOR", o2); ("NUMBER", c)].

Definition second_in_parentheses (a o1 b o2 c : string) : list token :=
  [("NUMBER", a); ("OPERATOR", o1); ("PAREN", "("); ("NUMBER", b);
   ("OPERATOR", o2); ("NUMBER", c); ("PAREN", ")")].

(** Trees that the statements name. *)
Definition number_node (x : float) : Node := mkNode "NUMBER" (VFloat x) None None.

(** The tree of ["2 ^ 3 ^ 2"]: the second power is the right operand of the
    first. *)
Definition two_to_three_to_two : Node :=
  create_operator_node "^" (number_node 2)
    (create_operator_node "^" (number_node 3) (number_node 2)).

(** The tree of ["-5"]. *)
Definition minus_five : Node := create_unary_node "u-" (number_node 5).

(** The tree of ["2 + 3"]. *)
Definition two_plus_three : Node :=
  create_operator_node "+" (number_node 2) (number_node 3).

(** The tree of ["log(0)"]. *)
Definition log_of_zero : Node := create_function_node "log" (number_node 0).

(** ** Definitions used by the further properties *)

(** The strings that a pattern matches as a whole. *)
Fixpoint re_lang (r : regex) (v : string) : Prop :=
  match r with
  | RLit text => v = text
  | RSet member => exists c, v = String c "" /\ member c = true
  | RPlus member => str_truthy v = true /\ str_forall member v = true
  | RSeq r1 r2 =>
      exists v1 v2, v = v1 +:+ v2 /\ re_lang r1 v1 /\ re_lang r2 v2
  | RAlt r1 r2 => re_lang r1 v \/ re_lang r2 v
  | ROpt r' => v = "" \/ re_lang r' v
  end.

Definition unary_symbols : list string := ["u-"; "u+"].

Definition constant_keywords : list string := ["pi"; "e"].

(** A token as the lexer makes them: a kind, and a text of that kind. *)
Definition lexical (tok : token) : Prop :=
  (tok.1 = "NUMBER" /\ exists x, py_float tok.2 = inr x)
  \/ (tok.1 = "FUNCTION" /\ one_of_strings function_keywords tok.2 = true)
  \/ (tok.1 = "CONSTANT" /\ one_of_strings constant_keywords tok.2 = true)
  \/ (tok.1 = "OPERATOR" /\ one_of_strings binary_symbols tok.2 = true)
  \/ (tok.1 = "PAREN" /\ one_of_strings ["("; ")"] tok.2 = true).

(** Whether some pattern can match at the front of [rest]: by its first
    character, or by a keyword in front. *)
Definition recognised_start (rest : string) : bool :=
  match rest with
  | EmptyString => false
  | String c _ =>
      is_digit c
      || existsb (fun k => begins_with k rest) function_keywords
      || existsb (fun k => begins_with k rest) constant_keywords
      || one_of "+-*/^" c || one_of "()" c || is_space c
  end.

(** A tree as the parser builds them: number leaves that hold a float,
    operator nodes with a binary symbol and two children, function and unary
    nodes with their symbol and one child. *)
Fixpoint well_formed (node : Node) : bool :=
  match node with
  | mkNode kind value lchild rchild =>
      if String.eqb kind "NUMBER" then
        match value, lchild, rchild with
        | VFloat _, None, None => true
        | _, _, _ => false
        end
      else if String.eqb kind "OPERATOR" then
        match value, lchild, rchild with
        | VStr symbol, Some a, Some b =>
            one_of_strings binary_symbols symbol
            && well_formed a && well_formed b
        | _, _, _ => false
        end
      else if String.eqb kind "FUNCTION" then
        match value, lchild, rchild with
        | VStr symbol, Some a, None =>
            one_of_strings function_keywords symbol && well_formed a
        | _, _, _ => false
        end
      else if String.eqb kind "UNARY" then
        match value, lchild, rchild with
        | VStr symbol, Some a, None =>
            one_of_strings unary_symbols symbol && well_formed a
        | _, _, _ => false
        end
      else false
  end.

(** Whether a pattern matches at the front of [rest]. *)
Definition starts (r : regex) (rest : string) : bool :=
  match re_match r rest Some with
  | Some _ => true
  | None => false
  end.

(** What the operator stack holds while lexer tokens are parsed. *)
Definition stack_symbol (s : string) : bool :=
  String.eqb s "("
  || one_of_strings function_keywords s
  || one_of_strings binary_symbols s
  || one_of_strings unary_symbols s.

Definition stack_ok (operator_stack : list string) : Prop :=
  Forall (fun s => stack_symbol s = true) operator_stack.

Definition nodes_ok (output_stack : list Node) : Prop :=
  Forall (fun node => well_formed node = true) output_stack.

Definition state_ok (st : parser_state) : Prop :=
  stack_ok (operator_stack st) /\ nodes_ok (output_stack st).

(** How many opening parentheses are open after [tokens], starting from
    [depth]; [None] when a closing one comes with none open. *)
Fixpoint paren_depth (depth : nat) (tokens : list token) : option nat :=
  match tokens with
  | [] => Some depth
  | (kind, text) :: tokens' =>
      if String.eqb kind "PAREN" && String.eqb text "(" then
        paren_depth (S depth) tokens'
      else if String.eqb kind "PAREN" && String.eqb text ")" then
        match depth with
        | O => None
        | S depth' => paren_depth depth' tokens'
        end
      else paren_depth depth tokens'
  end.

(** The opening parentheses on an operator stack. *)
Fixpoint opens (operator_stack : list string) : nat :=
  match operator_stack with
  | [] => 0
  | s :: operator_stack' =>
      (if String.eqb s "(" then 1 else 0) + opens operator_stack'
  end.

(** A parser state and the state that the same tokens lead to when an
    opening parenthesis was read before them: the same output, one more
    parenthesis at the bottom of the operator stack, and a previous token
    that puts a sign in the same position. *)
Definition wrapped (s t : parser_state) : Prop :=
  output_stack t = output_stack s
  /\ operator_stack t = operator_stack s ++ ["("]
  /\ ((previous_token_type t = previous_token_type s
       /\ previous_token_value t = previous_token_value s)
      \/ (previous_token_type s = None
          /\ previous_token_type t = Some "PAREN"
          /\ previous_token_value t = Some "(")).

(** What a token adds to the count of operands minus binary operators: an
    operand is a NUMBER or a CONSTANT, a binary operator is an OPERATOR that
    is not read as a sign after the token before it. *)
Definition token_surplus (previous_type previous_value : option string)
  (tok : token) : Z :=
  if String.eqb tok.1 "NUMBER" || String.eqb tok.1 "CONSTANT" then 1%Z
  else if String.eqb tok.1 "OPERATOR"
          && negb (should_be_unary tok.1 tok.2 previous_type previous_value)
  then (-1)%Z
  else 0%Z.

Fixpoint operand_surplus (previous_type previous_value : option string)
  (tokens : list token) : Z :=
  match tokens with
  | [] => 0%Z
  | tok :: tokens' =>
      (token_surplus previous_type previous_value tok
       + operand_surplus (Some tok.1) (Some tok.2) tokens')%Z
  end.

(** A stack entry that will be reduced with two operands. *)
Definition binary_on_stack (s : string) : bool :=
  negb (String.eqb s "(")
  && negb (one_of_strings function_keywords s)
  && negb (one_of_strings unary_symbols s).

Fixpoint binaries (operator_stack : list string) : nat :=
  match operator_stack with
  | [] => 0
  | s :: operator_stack' =>
      (if binary_on_stack s then 1 else 0) + binaries operator_stack'
  end.

(** The nodes there will be once the operator stack is reduced. *)
Definition pending (operator_stack : list string) (output_stack : list Node)
  : Z :=
  (Z.of_nat (length output_stack) - Z.of_nat (binaries operator_stack))%Z.

(** The way in which the lexer fails. *)
Definition lex_error (expression : string) (e : exn) : Prop :=
  exists q,
    q < String.length expression
    /\ e = ValueError (msg_bad_char +:+ str_at expression q).

(** The ways in which the parser fails on lexer tokens. *)
Definition parse_error (e : exn) : Prop :=
  e = pop_error \/ e = ValueError msg_unbalanced \/ e = ValueError msg_tree.

(** The two errors of the [math] wrapper. *)
Definition math_error (e : exn) : Prop :=
  e = ValueError "math domain error" \/ e = OverflowError "math range error".

(** The errors that only a power brings in: zero to a negative power, a
    result out of range (of a power, or of the modulus of a complex number),
    and a function that takes no complex number. *)
Definition power_error (e : exn) : Prop :=
  (exists msg, e = ZeroDivisionError msg)
  \/ (exists msg, e = OverflowError msg)
  \/ e = TypeError.

(** A tree without a power. *)
Fixpoint power_free (node : Node) : bool :=
  match node with
  | mkNode kind value lchild rchild =>
      negb (String.eqb kind "OPERATOR" && value_is value "^")
      && match lchild with Some n => power_free n | None => true end
      && match rchild with Some n => power_free n | None => true end
  end.

(** What the evaluation of a parsed tree comes to: a float, or one of the two
    errors of the [math] wrapper; and, where a power is involved, also a
    complex number or one of the errors that a power brings in. *)
Definition evaluation_result (without_power : bool) (r : result pyval)
  : Prop :=
  match r with
  | inr v =>
      (exists x, v = VFloat x)
      \/ (without_power = false /\ exists re im, v = VComplex re im)
  | inl e => math_error e \/ (without_power = false /\ power_error e)
  end.

(** A text without the character of the power. *)
Definition no_power_sign (c : ascii) : bool := negb (Ascii.eqb c "^").

Definition power_free_text (text : string) : bool :=
  str_forall no_power_sign text.

(** Stacks of the parser without a power. *)
Definition stack_without_power (operator_stack : list string) : Prop :=
  Forall (fun s => String.eqb s "^" = false) operator_stack.

Definition nodes_without_power (output_stack : list Node) : Prop :=
  Forall (fun node => power_free node = true) output_stack.

(** The evaluator that hands both tables down to the children: what
    [evaluate_expression_tree] would be with the tables as parameters of
    every helper. *)
Fixpoint evaluate_with_tables (node : Node)
  (operations : gmap string binary_behavior)
  (functions : gmap string unary_behavior) {struct node} : result pyval :=
  let child c :=
    match c with
    | Some n => evaluate_with_tables n operations functions
    | None => inl AttributeError
    end in
  if String.eqb (node_type node) "NUMBER" then
    inr (evaluate_number_node node)
  else if String.eqb (node_type node) "OPERATOR" then
    let* left_value := child (node_left node) in
    let* right_value := child (node_right node) in
    let* behavior := dict_get operations (node_value node) in
    behavior left_value right_value
  else if String.eqb (node_type node) "FUNCTION" then
    let* argument_value := child (node_left node) in
    let* behavior := dict_get functions (node_value node) in
    behavior argument_value
  else if String.eqb (node_type node) "UNARY" then
    let* argument_value := child (node_left node) in
    if value_is (node_value node) "u-" then py_neg argument_value
    else inr argument_value
  else inl (ValueError (msg_node_type +:+ node_type node)).

(** * Properties *)

(** ** Strings *)

Lemma app_cons (c : ascii) (s t : string) :
  String c s +:+ t = String c (s +:+ t).
Proof. reflexivity. Qed.

Lemma app_empty_l (t : string) : "" +:+ t = t.
Proof. reflexivity. Qed.

Lemma app_empty_r (s : string) : s +:+ "" = s.
Proof. induction s as [|c s IH]; [reflexivity|]. now rewrite app_cons, IH. Qed.

Lemma app_assoc' (a b c : string) : (a +:+ b) +:+ c = a +:+ b +:+ c.
Proof.
  induction a as [|x a IH]; [reflexivity|]. now rewrite !app_cons, IH.
Qed.

Lemma length_app' (a b : string) :
  String.length (a +:+ b) = String.length a + String.length b.
Proof.
  induction a as [|x a IH]; [reflexivity|]. rewrite app_cons. simpl. now rewrite IH.
Qed.

Lemma str_drop_app (a b : string) : str_drop (String.length a) (a +:+ b) = b.
Proof. induction a as [|x a IH]; [reflexivity|]. rewrite app_cons. exact IH. Qed.

Lemma str_take_app (a b : string) : str_take (String.length a) (a +:+ b) = a.
Proof.
  induction a as [|x a IH]; [now destruct b|]. rewrite app_cons. simpl. now rewrite IH.
Qed.

Lemma str_drop_add (n m : nat) (s : string) :
  str_drop (n + m) s = str_drop m (str_drop n s).
Proof.
  revert s. induction n as [|n IH]; intros s; [reflexivity|].
  destruct s as [|c s]; simpl; [now destruct m|apply IH].
Qed.

Lemma length_str_drop (n : nat) (s : string) :
  String.length (str_drop n s) = String.length s - n.
Proof.
  revert s. induction n as [|n IH]; intros s; simpl.
  - lia.
  - destruct s as [|c s]; simpl; [reflexivity|apply IH].
Qed.

Lemma str_drop_all (n : nat) (s : string) :
  String.length s <= n -> str_drop n s = "".
Proof.
  revert s. induction n as [|n IH]; intros [|c s] H; simpl in *;
    try reflexivity; try lia.
  apply IH. lia.
Qed.

Lemma str_filter_app (p : ascii -> bool) (a b : string) :
  str_filter p (a +:+ b) = str_filter p a +:+ str_filter p b.
Proof.
  induction a as [|x a IH]; [reflexivity|]. rewrite app_cons. simpl.
  destruct (p x); [rewrite app_cons|]; now rewrite IH.
Qed.

Lemma str_filter_all (p : ascii -> bool) (s : string) :
  str_forall p s = true -> str_filter p s = s.
Proof.
  induction s as [|c s IH]; simpl; [reflexivity|].
  intros [Hc Hs]%andb_prop. rewrite Hc. now rewrite IH.
Qed.

Lemma str_filter_none (p : ascii -> bool) (s : string) :
  str_forall (fun c => negb (p c)) s = true -> str_filter p s = "".
Proof.
  induction s as [|c s IH]; simpl; [reflexivity|].
  intros [Hc Hs]%andb_prop. apply negb_true_iff in Hc. rewrite Hc. now apply IH.
Qed.

Lemma str_forall_app (p : ascii -> bool) (a b : string) :
  str_forall p (a +:+ b) = str_forall p a && str_forall p b.
Proof.
  induction a as [|x a IH]; [reflexivity|]. rewrite app_cons. simpl.
  now rewrite IH, andb_assoc.
Qed.

Lemma str_truthy_app (a b : string) :
  str_truthy (a +:+ b) = str_truthy a || str_truthy b.
Proof. destruct a; reflexivity. Qed.

Lemma join_texts_snoc (tokens : list token) (kind text : string) :
  join_texts (tokens ++ [(kind, text)]) = join_texts tokens +:+ text.
Proof.
  induction tokens as [|[k t] tokens IH]; simpl.
  - now rewrite app_empty_r.
  - now rewrite IH, app_assoc'.
Qed.

(** ** Regular expressions: what a match consumes *)

Section regex_matching.

Context {A : Type}.
Variable P : ascii -> bool.

Lemma lit_match_split (text s : string) (k : string -> option A) (x : A) :
  lit_match text s k = Some x ->
  exists rest, s = text +:+ rest /\ k rest = Some x.
Proof.
  revert s. induction text as [|c text IH]; intros s H; simpl in H.
  - now exists s.
  - destruct s as [|d s]; [discriminate|].
    destruct (Ascii.eqb c d) eqn:E; [|discriminate].
    apply Ascii.eqb_eq in E. subst d.
    destruct (IH _ H) as (rest & -> & Hk). now exists rest.
Qed.

Lemma star_match_split (member : ascii -> bool) (s : string)
  (k : string -> option A) (x : A) :
  star_match member s k = Some x ->
  exists v rest,
    s = v +:+ rest /\ k rest = Some x /\ str_forall member v = true.
Proof.
  induction s as [|c s IH]; intros H; simpl in H.
  - now exists "", "".
  - destruct (member c) eqn:Hc; [|now exists "", (String c s)].
    destruct (star_match member s k) as [y|] eqn:Hs.
    + injection H as ->. destruct (IH eq_refl) as (v & rest & -> & Hk & Hv).
      exists (String c v), rest. simpl. now rewrite Hc, Hv.
    + now exists "", (String c s).
Qed.

Lemma re_match_split (r : regex) (s : string) (k : string -> option A)
  (x : A) :
  re_match r s k = Some x ->
  exists v rest,
    s = v +:+ rest /\ k rest = Some x
    /\ (re_chars P r -> str_forall P v = true)
    /\ (re_nonnull r = true -> str_truthy v = true).
Proof.
  revert s k. induction r as [text|member|member|r1 IH1 r2 IH2|r1 IH1 r2 IH2|r IH];
    intros s k H; simpl in H.
  - destruct (lit_match_split _ _ _ _ H) as (rest & -> & Hk).
    exists text, rest. now simpl.
  - destruct s as [|c s]; [discriminate|].
    destruct (member c) eqn:Hc; [|discriminate].
    exists (String c ""), s. simpl. repeat split; auto.
    intros HP. now rewrite (HP c Hc).
  - destruct s as [|c s]; [discriminate|].
    destruct (member c) eqn:Hc; [|discriminate].
    destruct (star_match_split _ _ _ _ H) as (v & rest & -> & Hk & Hv).
    exists (String c v), rest. simpl. repeat split; auto.
    intros HP. rewrite (HP c Hc). simpl.
    clear -HP Hv. induction v as [|d v IH]; [reflexivity|].
    simpl in *. apply andb_prop in Hv as [Hd Hv].
    now rewrite (HP d Hd), IH.
  - destruct (IH1 _ _ H) as (v1 & rest1 & -> & H2 & Hc1 & Hn1).
    destruct (IH2 _ _ H2) as (v2 & rest2 & -> & Hk & Hc2 & Hn2).
    exists (v1 +:+ v2), rest2. rewrite app_assoc'. repeat split; auto.
    + intros [HP1 HP2]. rewrite str_forall_app.
      now rewrite (Hc1 HP1), (Hc2 HP2).
    + simpl. rewrite str_truthy_app. intros [Hn|Hn]%orb_prop.
      * now rewrite (Hn1 Hn).
      * rewrite (Hn2 Hn). apply orb_true_r.
  - destruct (re_match r1 s k) as [y|] eqn:E1.
    + injection H as ->.
      destruct (IH1 _ _ E1) as (v & rest & -> & Hk & Hc & Hn).
      exists v, rest. repeat split; auto.
      * intros [HP _]. auto.
      * simpl. intros [Hn1 _]%andb_prop. auto.
    + destruct (IH2 _ _ H) as (v & rest & -> & Hk & Hc & Hn).
      exists v, rest. repeat split; auto.
      * intros [_ HP]. auto.
      * simpl. intros [_ Hn2]%andb_prop. auto.
  - destruct (re_match r s k) as [y|] eqn:E.
    + injection H as ->.
      destruct (IH _ _ E) as (v & rest & -> & Hk & Hc & _).
      exists v, rest. repeat split; auto; discriminate.
    + exists "", s. repeat split; auto; discriminate.
Qed.

End regex_matching.

Lemma pattern_match_split (P : ascii -> bool) (pattern : regex)
  (expression : string) (position : nat) (value : string) (match_end : nat) :
  pattern_match pattern expression position = Some (value, match_end) ->
  str_drop position expression = value +:+ str_drop match_end expression
  /\ match_end = position + String.length value
  /\ (re_chars P pattern -> str_forall P value = true)
  /\ (re_nonnull pattern = true -> str_truthy value = true).
Proof.
  unfold pattern_match. intros H.
  destruct (re_match pattern (str_drop position expression) Some)
    as [rest'|] eqn:E; [|discriminate].
  destruct (re_match_split P _ _ _ _ E) as (v & rest & Hs & Hk & Hc & Hn).
  injection Hk as ->. rewrite Hs in H.
  rewrite length_app', Nat.add_sub, str_take_app in H.
  injection H as <- <-.
  rewrite str_drop_add, Hs, str_drop_app. auto.
Qed.

(** ** Lexer *)

Lemma digit_not_space (c : ascii) : is_digit c = true -> not_space c = true.
Proof. destruct c as [[] [] [] [] [] [] [] []]; vm_compute; congruence. Qed.

Lemma operator_not_space (c : ascii) :
  one_of "+-*/^" c = true -> not_space c = true.
Proof. destruct c as [[] [] [] [] [] [] [] []]; vm_compute; congruence. Qed.

Lemma paren_not_space (c : ascii) : one_of "()" c = true -> not_space c = true.
Proof. destruct c as [[] [] [] [] [] [] [] []]; vm_compute; congruence. Qed.

Lemma number_pattern_chars : re_chars not_space number_pattern.
Proof.
  simpl. repeat split; try reflexivity; exact digit_not_space.
Qed.

Lemma function_pattern_chars : re_chars not_space function_pattern.
Proof. simpl. repeat split; reflexivity. Qed.

Lemma constant_pattern_chars : re_chars not_space constant_pattern.
Proof. simpl. repeat split; reflexivity. Qed.

(** What one successful call of [match_token_at_position] with the program's
    patterns returns: a non-empty piece of the input that starts at
    [position], free of white space when it is a token and made of white
    space when it is skipped. *)
Lemma token_match_split (expression : string) (position : nat)
  (token_type : option string) (value : string) (match_end : nat) :
  match_token_at_position expression position get_compiled_patterns
    = Some (token_type, value, match_end) ->
  str_drop position expression = value +:+ str_drop match_end expression
  /\ match_end = position + String.length value
  /\ str_truthy value = true
  /\ match token_type_truthy token_type with
     | Some _ => str_forall not_space value = true
     | None => str_forall is_space value = true
     end.
Proof.
  unfold get_compiled_patterns, create_token_patterns. simpl. intros H.
  repeat match type of H with
  | context [pattern_match ?r ?e ?p] =>
      let E := fresh "E" in
      destruct (pattern_match r e p) as [[v n]|] eqn:E;
      [injection H as <- <- <-|]
  end; try discriminate.
  - destruct (pattern_match_split not_space _ _ _ _ _ E) as (? & ? & Hc & Hn).
    repeat split; auto. simpl. apply Hc, number_pattern_chars.
  - destruct (pattern_match_split not_space _ _ _ _ _ E0) as (? & ? & Hc & Hn).
    repeat split; auto. simpl. apply Hc, function_pattern_chars.
  - destruct (pattern_match_split not_space _ _ _ _ _ E1) as (? & ? & Hc & Hn).
    repeat split; auto. simpl. apply Hc, constant_pattern_chars.
  - destruct (pattern_match_split not_space _ _ _ _ _ E2) as (? & ? & Hc & Hn).
    repeat split; auto. simpl. apply Hc. exact operator_not_space.
  - destruct (pattern_match_split not_space _ _ _ _ _ E3) as (? & ? & Hc & Hn).
    repeat split; auto. simpl. apply Hc. exact paren_not_space.
  - destruct (pattern_match_split is_space _ _ _ _ _ E4) as (? & ? & Hc & Hn).
    repeat split; auto. simpl. apply Hc. simpl. auto.
Qed.

(** The loop keeps: the texts gathered so far, then the rest of the input
    without its white space, are the texts of the final token list. *)
Lemma tokenize_loop_texts (expression : string) (fuel position : nat)
  (tokens final : list token) :
  tokenize_loop fuel expression get_compiled_patterns position tokens
    = Some (inr final) ->
  join_texts final
    = join_texts tokens +:+ without_whitespace (str_drop position expression).
Proof.
  revert position tokens.
  induction fuel as [|fuel IH]; intros position tokens H; [discriminate|].
  cbn [tokenize_loop] in H.
  destruct (position <? String.length expression) eqn:Hpos.
  - destruct (match_token_at_position expression position get_compiled_patterns)
      as [[[token_type value] match_end]|] eqn:Hm; [|discriminate].
    apply token_match_split in Hm as (Hsplit & _ & _ & Hchars).
    apply IH in H. rewrite H, Hsplit.
    unfold without_whitespace. rewrite str_filter_app.
    destruct (token_type_truthy token_type) as [t|].
    + rewrite join_texts_snoc, app_assoc'.
      now rewrite (str_filter_all _ _ Hchars).
    + rewrite (str_filter_none not_space value); [reflexivity|].
      unfold not_space. erewrite <- Hchars. clear.
      induction value as [|c v IHv]; [reflexivity|]. simpl.
      now rewrite negb_involutive, IHv.
  - injection H as ->. apply Nat.ltb_ge in Hpos.
    rewrite (str_drop_all _ _ Hpos). unfold without_whitespace. simpl.
    now rewrite app_empty_r.
Qed.

(** The loop ends: every match consumes at least one character, so the
    distance to the end of the input bounds the number of turns. *)
Lemma tokenize_loop_ends (expression : string) (fuel position : nat)
  (tokens : list token) :
  String.length expression - position < fuel ->
  tokenize_loop fuel expression get_compiled_patterns position tokens <> None.
Proof.
  revert position tokens.
  induction fuel as [|fuel IH]; intros position tokens Hfuel; [lia|].
  cbn [tokenize_loop].
  destruct (position <? String.length expression) eqn:Hpos; [|discriminate].
  apply Nat.ltb_lt in Hpos.
  destruct (match_token_at_position expression position get_compiled_patterns)
    as [[[token_type value] match_end]|] eqn:Hm; [|discriminate].
  apply token_match_split in Hm as (_ & -> & Hne & _).
  apply IH. destruct value; [discriminate|]. simpl. lia.
Qed.

Lemma tokenize_expression_ends (expression : string) :
  tokenize_expression expression get_compiled_patterns <> None.
Proof. apply tokenize_loop_ends. lia. Qed.

(** C10. When the lexer succeeds on an input, the texts of its tokens, joined
    in order, are the input with its white space removed. *)
Theorem token_texts_rebuild_input (expression : string) (tokens : list token) :
  tokenize_expression expression get_compiled_patterns = Some (inr tokens) ->
  join_texts tokens = without_whitespace expression.
Proof.
  intros H. apply tokenize_loop_texts in H. exact H.
Qed.

Lemma token_texts_rebuild_input_witness :
  tokenize_expression " 3 + 5 * sin(pi) " get_compiled_patterns
    = Some (inr [("NUMBER", "3"); ("OPERATOR", "+"); ("NUMBER", "5");
                 ("OPERATOR", "*"); ("FUNCTION", "sin"); ("PAREN", "(");
                 ("CONSTANT", "pi"); ("PAREN", ")")])
  /\ join_texts [("NUMBER", "3"); ("OPERATOR", "+"); ("NUMBER", "5");
                 ("OPERATOR", "*"); ("FUNCTION", "sin"); ("PAREN", "(");
                 ("CONSTANT", "pi"); ("PAREN", ")")]
     = without_whitespace " 3 + 5 * sin(pi) ".
Proof.
  split; [reflexivity|].
  apply (token_texts_rebuild_input " 3 + 5 * sin(pi) "). reflexivity.
Defined.

(** ** Keywords are matched as prefixes of the rest of the input *)

Lemma pattern_match_prefix (pattern : regex) (pre v rest : string) :
  re_match pattern (v +:+ rest) Some = Some rest ->
  pattern_match pattern (pre +:+ v +:+ rest) (String.length pre)
    = Some (v, String.length pre + String.length v).
Proof.
  intros H. unfold pattern_match.
  now rewrite str_drop_app, H, length_app', Nat.add_sub, str_take_app.
Qed.

Lemma pattern_match_none (pattern : regex) (pre s : string) :
  re_match pattern s Some = None ->
  pattern_match pattern (pre +:+ s) (String.length pre) = None.
Proof. intros H. unfold pattern_match. now rewrite str_drop_app, H. Qed.

Lemma lit_match_none {A : Type} (text s : string) (k : string -> option A) :
  begins_with text s = false -> lit_match text s k = None.
Proof.
  revert s. induction text as [|c text IH]; intros [|d s]; simpl;
    try discriminate; try reflexivity.
  destruct (Ascii.eqb c d); [apply IH|reflexivity].
Qed.

Lemma exp_not_at (rest : string) :
  begins_with "xp" rest = false ->
  re_match function_pattern ("e" +:+ rest) Some = None.
Proof.
  intros H.
  change (match lit_match "xp" rest Some with
          | Some x => Some x
          | None => None
          end = None).
  now rewrite (lit_match_none _ _ _ H).
Qed.

(** C4, as the program has it.  A keyword is matched wherever the rest of the
    input begins with it, whatever follows: a function keyword always, [pi]
    always, and [e] unless [exp] stands there. *)
Theorem keyword_matched_as_prefix (kind k pre rest : string) :
  keyword_at kind k rest ->
  match_token_at_position (pre +:+ k +:+ rest) (String.length pre)
    get_compiled_patterns
  = Some (Some kind, k, String.length pre + String.length k).
Proof.
  unfold get_compiled_patterns, create_token_patterns. simpl map.
  intros [[-> Hk]|[-> [->|[-> Hrest]]]].
  - simpl in Hk.
    destruct Hk as [<-|[<-|[<-|[<-|[<-|[<-|[<-|[]]]]]]]];
      cbn [match_token_at_position];
      (rewrite (pattern_match_none number_pattern) by reflexivity);
      (rewrite (pattern_match_prefix function_pattern) by reflexivity);
      reflexivity.
  - cbn [match_token_at_position].
    rewrite (pattern_match_none number_pattern) by reflexivity.
    rewrite (pattern_match_none function_pattern) by reflexivity.
    rewrite (pattern_match_prefix constant_pattern) by reflexivity.
    reflexivity.
  - cbn [match_token_at_position].
    rewrite (pattern_match_none number_pattern) by reflexivity.
    rewrite (pattern_match_none function_pattern) by (now apply exp_not_at).
    rewrite (pattern_match_prefix constant_pattern) by reflexivity.
    reflexivity.
Qed.

Lemma keyword_matched_as_prefix_witness :
  keyword_at "FUNCTION" "sin" "e"
  /\ match_token_at_position "sine" 0 get_compiled_patterns
     = Some (Some "FUNCTION", "sin", 3).
Proof.
  assert (H : keyword_at "FUNCTION" "sin" "e").
  { left. split; [reflexivity|]. simpl. auto. }
  split; [exact H|].
  exact (keyword_matched_as_prefix "FUNCTION" "sin" "" "e" H).
Defined.

(** C4, as stated, fails: [sine] is lexed as the function [sin] followed by
    the constant [e]. *)
Lemma sine_is_sin_then_e :
  tokenize_expression "sine" get_compiled_patterns
  = Some (inr [("FUNCTION", "sin"); ("CONSTANT", "e")]).
Proof. reflexivity. Qed.

(** ** Parser loops *)

(** A pop takes exactly the top of the operator stack, which is why the loops
    of the parser go on with the tail. *)
Lemma pop_operator_tail {V : Type} (operator : string)
  (operator_stack ops : list string) (output_stack out : list Node)
  (functions : gmap string V) (precedence : gmap string Z) :
  pop_operator_and_create_node (operator :: operator_stack) output_stack
    functions precedence = inr (ops, out) ->
  ops = operator_stack.
Proof.
  unfold pop_operator_and_create_node.
  destruct (create_node_for operator output_stack functions) as [e|out'];
    simpl; congruence.
Qed.

(** A pop never lengthens the output stack: it takes one or two nodes and
    puts one back. *)
Lemma pop_operator_output {V : Type} (operator_stack ops : list string)
  (output_stack out : list Node) (functions : gmap string V)
  (precedence : gmap string Z) :
  pop_operator_and_create_node operator_stack output_stack functions
    precedence = inr (ops, out) ->
  length out <= length output_stack /\ 0 < length out.
Proof.
  unfold pop_operator_and_create_node, create_node_for, pop_node.
  destruct operator_stack as [|operator operator_stack]; [discriminate|].
  destruct (dict_has functions operator);
    [|destruct (String.eqb operator "u-" || String.eqb operator "u+")];
    destruct output_stack as [|n1 [|n2 rest]]; simpl;
    try discriminate; intros [= _ <-]; simpl; lia.
Qed.

(** The turn of the parser's loop for a number literal, and tactics that
    run the loop over a number, an operator and a parenthesis. *)
Lemma process_token_number {V : Type} (st : parser_state) (text : string)
  (x : float) (constants : gmap string float) (functions : gmap string V)
  (precedence : gmap string Z) (right_associative : gset string) :
  py_float text = inr x ->
  process_token st ("NUMBER", text) constants functions precedence
    right_associative
  = inr (mkState (number_node x :: output_stack st) (operator_stack st)
           (Some "NUMBER") (Some text)).
Proof.
  intros H. unfold process_token. cbn [String.eqb Ascii.eqb Bool.eqb].
  cbv iota. unfold create_number_node. now rewrite H.
Qed.

Ltac parse_number H :=
  cbn [process_tokens]; rewrite (process_token_number _ _ _ _ _ _ _ H);
  cbn [bind output_stack operator_stack].

Ltac parse_operator :=
  cbn [process_tokens];
  match goal with
  | |- context [process_token ?st ("OPERATOR", ?o) ?c ?f ?p ?r] =>
      let t := constr:(process_token st ("OPERATOR", o) c f p r) in
      let v := eval vm_compute in t in
      replace t with v by (vm_compute; reflexivity)
  end;
  cbn [bind output_stack operator_stack].

Ltac parse_parenthesis :=
  cbn [process_tokens];
  match goal with
  | |- context [process_token ?st ("PAREN", ?o) ?c ?f ?p ?r] =>
      let t := constr:(process_token st ("PAREN", o) c f p r) in
      let v := eval vm_compute in t in
      replace t with v by (vm_compute; reflexivity)
  end;
  cbn [bind output_stack operator_stack].

(** ** Evaluation, one node kind at a time *)

Lemma evaluate_number (G : globals) (x : float)
  (operations : gmap string binary_behavior)
  (functions : gmap string unary_behavior) :
  evaluate_expression_tree G (mkNode "NUMBER" (VFloat x) None None)
    operations functions = inr (VFloat x).
Proof. reflexivity. Qed.

(** The children of an operator node see the operator table that was passed
    and the function table of the global name. *)
Lemma evaluate_operator (G : globals) (operator : string) (left right : Node)
  (operations : gmap string binary_behavior)
  (functions global : gmap string unary_behavior) :
  global_functions G = Some global ->
  evaluate_expression_tree G (create_operator_node operator left right)
    operations functions
  = (let* left_value := evaluate_expression_tree G left operations global in
     let* right_value := evaluate_expression_tree G right operations global in
     let* behavior := dict_get operations (VStr operator) in
     behavior left_value right_value).
Proof.
  intros H. cbn -[dict_get]. unfold evaluate_operator_node. cbn -[dict_get].
  rewrite H. reflexivity.
Qed.

(** The operand of a unary node sees the two global tables; no table is asked
    for the sign itself. *)
Lemma evaluate_unary (G : globals) (operator : string) (argument : Node)
  (operations global_ops : gmap string binary_behavior)
  (functions global_fns : gmap string unary_behavior) :
  global_operations G = Some global_ops ->
  global_functions G = Some global_fns ->
  evaluate_expression_tree G (create_unary_node operator argument)
    operations functions
  = (let* argument_value :=
       evaluate_expression_tree G argument global_ops global_fns in
     if String.eqb operator "u-" then py_neg argument_value
     else inr argument_value).
Proof.
  intros Ho Hf. cbn. unfold evaluate_unary_node. cbn.
  rewrite Ho, Hf. reflexivity.
Qed.

(** ** The claims about the parser and the evaluator *)

(** C8. Precedence and grouping through the whole pipeline.  For any three
    number literals and any two binary operators, an input whose tokens are
    [a o1 b o2 c] evaluates to [(a o1 b) o2 c], unless the second operator
    is the power, or a product or quotient after a sum or difference: then
    to [a o1 (b o2 c)].  Parentheses override this: [(a o1 b) o2 c] and
    [a o1 (b o2 c)] evaluate as they are written, whatever the operators.
    So ["3 + 5 * 2"] is 13 and ["(3 + 5) * 2"] is 16. *)
Theorem precedence_and_grouping (X : Extern) (o1 o2 a b c : string)
  (x y z : float) :
  In o1 binary_symbols -> In o2 binary_symbols ->
  py_float a = inr x -> py_float b = inr y -> py_float c = inr z ->
  (forall input,
     tokenize_expression input get_compiled_patterns
     = Some (inr (three_operands a o1 b o2 c)) ->
     run X input
     = Some (if binds_tighter o1 o2 then right_grouped X o1 o2 x y z
             else left_grouped X o1 o2 x y z))
  /\ (forall input,
        tokenize_expression input get_compiled_patterns
        = Some (inr (first_in_parentheses a o1 b o2 c)) ->
        run X input = Some (left_grouped X o1 o2 x y z))
  /\ (forall input,
        tokenize_expression input get_compiled_patterns
        = Some (inr (second_in_parentheses a o1 b o2 c)) ->
        run X input = Some (right_grouped X o1 o2 x y z))
  /\ run X "3 + 5 * 2" = Some (inr (VFloat 13))
  /\ run X "(3 + 5) * 2" = Some (inr (VFloat 16)).
Proof.
  intros H1 H2 Ha Hb Hc.
  split; [|split; [|split; [|split; vm_compute; reflexivity]]];
    intros input Hlex; unfold run, calculate_expression; rewrite Hlex;
    f_equal; unfold build_syntax_tree, three_operands, first_in_parentheses,
      second_in_parentheses;
    destruct H1 as [<-|[<-|[<-|[<-|[<-|[]]]]]];
    destruct H2 as [<-|[<-|[<-|[<-|[<-|[]]]]]].
  1-25: parse_number Ha; parse_operator; parse_number Hb; parse_operator;
    parse_number Hc; vm_compute; reflexivity.
  1-25: parse_parenthesis; parse_number Ha; parse_operator; parse_number Hb;
    parse_parenthesis; parse_operator; parse_number Hc; vm_compute;
    reflexivity.
  all: parse_number Ha; parse_operator; parse_parenthesis; parse_number Hb;
    parse_operator; parse_number Hc; parse_parenthesis; vm_compute;
    reflexivity.
Qed.

Lemma precedence_and_grouping_witness :
  (forall input,
     tokenize_expression input get_compiled_patterns
     = Some (inr (three_operands "3" "+" "5" "*" "2")) ->
     run exact_extern input = Some (inr (VFloat 13)))
  /\ (forall input,
        tokenize_expression input get_compiled_patterns
        = Some (inr (first_in_parentheses "3" "+" "5" "*" "2")) ->
        run exact_extern input = Some (inr (VFloat 16)))
  /\ (forall input,
        tokenize_expression input get_compiled_patterns
        = Some (inr (second_in_parentheses "3" "+" "5" "*" "2")) ->
        run exact_extern input = Some (inr (VFloat 13)))
  /\ run exact_extern "3 + 5 * 2" = Some (inr (VFloat 13))
  /\ run exact_extern "(3 + 5) * 2" = Some (inr (VFloat 16)).
Proof.
  exact (precedence_and_grouping exact_extern "+" "*" "3" "5" "2" 3 5 2
           (or_introl eq_refl) (or_intror (or_intror (or_introl eq_refl)))
           eq_refl eq_refl eq_refl).
Defined.

(** C5. The power operator groups to the right: a second [^] does not pop the
    first, the tree of ["2 ^ 3 ^ 2"] is [2 ^ (3 ^ 2)], and with a float power
    that is exact on [3 ** 2] and [2 ** 9] its value is 512. *)
Theorem power_is_right_associative (X : Extern) :
  float_pow X 3 2 = inr (NFloat 9) ->
  float_pow X 2 9 = inr (NFloat 512) ->
  (forall operator_stack,
     can_pop_operator "^" ("^" :: operator_stack) create_precedence_map
       create_right_associative_set = inr false)
  /\ build_syntax_tree
       [("NUMBER", "2"); ("OPERATOR", "^"); ("NUMBER", "3");
        ("OPERATOR", "^"); ("NUMBER", "2")]
       create_constants_map (create_functions_map X) create_precedence_map
       create_right_associative_set = inr two_to_three_to_two
  /\ run X "2 ^ 3 ^ 2" = Some (inr (VFloat 512)).
Proof.
  intros H32 H29. destruct X as [s c t l e pow ? ? ? ? ? ?].
  simpl in H32, H29.
  split; [|split].
  - intros operator_stack. vm_compute. reflexivity.
  - vm_compute. reflexivity.
  - vm_compute. rewrite H32, H29. reflexivity.
Qed.

Lemma power_is_right_associative_witness :
  (forall operator_stack,
     can_pop_operator "^" ("^" :: operator_stack) create_precedence_map
       create_right_associative_set = inr false)
  /\ build_syntax_tree
       [("NUMBER", "2"); ("OPERATOR", "^"); ("NUMBER", "3");
        ("OPERATOR", "^"); ("NUMBER", "2")]
       create_constants_map (create_functions_map exact_extern)
       create_precedence_map create_right_associative_set
     = inr two_to_three_to_two
  /\ run exact_extern "2 ^ 3 ^ 2" = Some (inr (VFloat 512)).
Proof.
  exact (power_is_right_associative exact_extern eq_refl eq_refl).
Defined.

(** C7. A division whose divisor evaluates to zero (of either sign) is
    positive infinity, whatever the dividend evaluates to; so are ["1/0"],
    ["-1/0"] and ["0/0"]. *)
Theorem division_by_zero_is_infinity (X : Extern) (left right : Node)
  (a : pyval) (b : float) :
  evaluate_expression_tree (main_globals X) left
    (create_operations_map X) (create_functions_map X) = inr a ->
  evaluate_expression_tree (main_globals X) right
    (create_operations_map X) (create_functions_map X) = inr (VFloat b) ->
  (b =? 0)%float = true ->
  evaluate_expression_tree (main_globals X)
    (create_operator_node "/" left right)
    (create_operations_map X) (create_functions_map X)
  = inr (VFloat infinity)
  /\ run X "1/0" = Some (inr (VFloat infinity))
  /\ run X "-1/0" = Some (inr (VFloat infinity))
  /\ run X "0/0" = Some (inr (VFloat infinity)).
Proof.
  intros Hl Hr Hb. split; [|repeat split; vm_compute; reflexivity].
  rewrite (evaluate_operator (main_globals X) "/" left right _ _
             (create_functions_map X) eq_refl).
  rewrite Hl, Hr. cbn [bind].
  change (dict_get (create_operations_map X) (VStr "/")) with
    (inr (op_div X) : result binary_behavior).
  cbn [bind]. unfold op_div, differs_from_zero. now rewrite Hb.
Qed.

Lemma division_by_zero_is_infinity_witness :
  evaluate_expression_tree (main_globals exact_extern)
    (create_operator_node "/"
       (mkNode "NUMBER" (VFloat (-1)) None None)
       (mkNode "NUMBER" (VFloat (-0)) None None))
    (create_operations_map exact_extern) (create_functions_map exact_extern)
  = inr (VFloat infinity)
  /\ run exact_extern "1/0" = Some (inr (VFloat infinity))
  /\ run exact_extern "-1/0" = Some (inr (VFloat infinity))
  /\ run exact_extern "0/0" = Some (inr (VFloat infinity)).
Proof.
  exact (division_by_zero_is_infinity exact_extern
           (mkNode "NUMBER" (VFloat (-1)) None None)
           (mkNode "NUMBER" (VFloat (-0)) None None)
           (VFloat (-1)) (-0)%float eq_refl eq_refl eq_refl).
Defined.

(** A unary node is evaluated the same whatever tables are passed. *)
Lemma unary_node_ignores_passed_tables (G : globals) (operator : string)
  (argument : Node) (operations operations' : gmap string binary_behavior)
  (functions functions' : gmap string unary_behavior) :
  evaluate_expression_tree G (create_unary_node operator argument)
    operations functions
  = evaluate_expression_tree G (create_unary_node operator argument)
      operations' functions'.
Proof. reflexivity. Qed.

(** C1. The node evaluators do not hand on the tables they were given: the
    operand of a unary node is evaluated with the two global tables, so the
    tree of ["-5"] raises [NameError] where the globals are unbound, and the
    tree of ["-(2 + 3)"] is evaluated with the global tables even when empty
    tables are passed. *)
Theorem evaluation_reads_global_tables (X : Extern) :
  build_syntax_tree [("OPERATOR", "-"); ("NUMBER", "5")]
    create_constants_map (create_functions_map X) create_precedence_map
    create_right_associative_set = inr minus_five
  /\ evaluate_expression_tree no_globals minus_five
       (create_operations_map X) (create_functions_map X)
     = inl (NameError "operations")
  /\ evaluate_expression_tree (main_globals X) minus_five
       (create_operations_map X) (create_functions_map X)
     = inr (VFloat (-5))
  /\ evaluate_expression_tree no_globals two_plus_three
       (create_operations_map X) (create_functions_map X)
     = inl (NameError "functions")
  /\ evaluate_expression_tree (main_globals X)
       (create_unary_node "u-" two_plus_three) ∅ ∅
     = inr (VFloat (-5)).
Proof. repeat split; vm_compute; reflexivity. Qed.

(** C2. A trailing binary operator is not reported by the parser's own
    [ValueError]: the last loop pops the right operand, then pops again from
    the empty output stack. *)
Theorem trailing_operator_pops_empty_stack (X : Extern) :
  tokenize_expression "3 +" get_compiled_patterns
    = Some (inr [("NUMBER", "3"); ("OPERATOR", "+")])
  /\ build_syntax_tree [("NUMBER", "3"); ("OPERATOR", "+")]
       create_constants_map (create_functions_map X) create_precedence_map
       create_right_associative_set
     = inl (IndexError "pop from empty list")
  /\ run X "3 +" = Some (inl (IndexError "pop from empty list")).
Proof. repeat split; vm_compute; reflexivity. Qed.

(** C3. [log] is in the function table, and yet the call node of [log]
    applied to zero raises: [math.log] has no guard of the kind that [sqrt]
    and [/] have. *)
Theorem log_of_zero_raises (X : Extern) :
  dict_has (create_functions_map X) "log" = true
  /\ evaluate_expression_tree (main_globals X) log_of_zero
       (create_operations_map X) (create_functions_map X)
     = inl (ValueError "math domain error")
  /\ run X "log(0)" = Some (inl (ValueError "math domain error"))
  /\ run X "sqrt(-4)" = Some (inr (VFloat nan)).
Proof. repeat split; vm_compute; reflexivity. Qed.

(** ** Symbols and behavior maps *)

Lemma ranked_symbols (s : string) :
  is_Some (create_precedence_map !! s) \/ s ∈ create_right_associative_set ->
  s = "+" \/ s = "-" \/ s = "*" \/ s = "/" \/ s = "^" \/ s = "u-" \/ s = "u+".
Proof.
  unfold create_precedence_map, create_right_associative_set.
  intros [H|H].
  - repeat (apply lookup_insert_is_Some in H as [<-|[_ H]]; [tauto|]).
    apply lookup_singleton_is_Some in H as <-. tauto.
  - rewrite !elem_of_union, !elem_of_singleton in H. tauto.
Qed.

(** C9, as stated, fails: the unary minus has a rank and is right-associative,
    and neither behavior map has an entry for it. *)
Lemma unary_minus_has_no_behavior :
  is_Some (create_precedence_map !! "u-")
  /\ "u-" ∈ create_right_associative_set
  /\ (forall X : Extern,
        create_operations_map X !! "u-" = None
        /\ create_functions_map X !! "u-" = None).
Proof.
  split; [|split].
  - now exists 4%Z.
  - apply elem_of_union_l, elem_of_union_r. now apply elem_of_singleton.
  - intros X. split; vm_compute; reflexivity.
Qed.

(** C9, as the program has it.  Every symbol with a rank or in the
    right-associative set, the two unary signs apart, is one of the five
    binary operators and has an entry in the operator map.  The two unary
    signs have a rank and are right-associative, and have an entry in
    neither behavior map; the evaluator has a branch of its own for them:
    the negated operand for [u-], the operand for [u+]. *)
Theorem ranked_symbols_behavior (X : Extern) (argument : Node) (x : float) :
  evaluate_expression_tree (main_globals X) argument
    (create_operations_map X) (create_functions_map X) = inr (VFloat x) ->
  (forall s,
     is_Some (create_precedence_map !! s) \/ s ∈ create_right_associative_set ->
     s <> "u-" -> s <> "u+" ->
     In s binary_symbols /\ is_Some (create_operations_map X !! s))
  /\ (forall s,
        s = "u-" \/ s = "u+" ->
        is_Some (create_precedence_map !! s)
        /\ s ∈ create_right_associative_set
        /\ create_operations_map X !! s = None
        /\ create_functions_map X !! s = None)
  /\ (forall operations functions,
        evaluate_expression_tree (main_globals X)
          (create_unary_node "u-" argument) operations functions
        = inr (VFloat (- x))
        /\ evaluate_expression_tree (main_globals X)
             (create_unary_node "u+" argument) operations functions
           = inr (VFloat x)).
Proof.
  intros Hx. split; [|split].
  - intros s Hs Hminus Hplus. apply ranked_symbols in Hs.
    destruct Hs as [->|[->|[->|[->|[->|[->| ->]]]]]]; try congruence.
    all: split; [simpl; tauto|eexists; vm_compute; reflexivity].
  - intros s [->| ->].
    all: split; [now exists 4%Z|].
    all: split; [|split; vm_compute; reflexivity].
    + apply elem_of_union_l, elem_of_union_r. now apply elem_of_singleton.
    + apply elem_of_union_r. now apply elem_of_singleton.
  - intros operations functions.
    rewrite !(evaluate_unary (main_globals X) _ argument operations
                (create_operations_map X) functions (create_functions_map X)
                eq_refl eq_refl).
    rewrite Hx. split; reflexivity.
Qed.

Lemma ranked_symbols_behavior_witness :
  (forall s,
     is_Some (create_precedence_map !! s) \/ s ∈ create_right_associative_set ->
     s <> "u-" -> s <> "u+" ->
     In s binary_symbols /\ is_Some (create_operations_map exact_extern !! s))
  /\ (forall s,
        s = "u-" \/ s = "u+" ->
        is_Some (create_precedence_map !! s)
        /\ s ∈ create_right_associative_set
        /\ create_operations_map exact_extern !! s = None
        /\ create_functions_map exact_extern !! s = None)
  /\ (forall operations functions,
        evaluate_expression_tree (main_globals exact_extern)
          (create_unary_node "u-" two_plus_three) operations functions
        = inr (VFloat (- 5))
        /\ evaluate_expression_tree (main_globals exact_extern)
             (create_unary_node "u+" two_plus_three) operations functions
           = inr (VFloat 5)).
Proof.
  exact (ranked_symbols_behavior exact_extern two_plus_three 5 eq_refl).
Defined.

(** ** Unary signs *)

Lemma sign_is_unary_iff (v : string)
  (previous_type previous_value : option string) :
  v = "+" \/ v = "-" ->
  should_be_unary "OPERATOR" v previous_type previous_value = true
  <-> operator_position previous_type previous_value.
Proof.
  intros Hv. unfold should_be_unary, operator_position.
  assert (Hsign : String.eqb "OPERATOR" "OPERATOR" && str_contains v "+-" = true)
    by (destruct Hv as [-> | ->]; reflexivity).
  rewrite Hsign. clear Hsign.
  destruct previous_type as [t|]; [|tauto].
  destruct (String.eqb_spec t "PAREN") as [-> | Hparen].
  - destruct previous_value as [x|]; simpl.
    + destruct (String.eqb_spec x "(") as [-> | Hx]; simpl.
      * tauto.
      * split; [discriminate|].
        intros [H|[[_ H]|H]]; congruence.
    + split; [discriminate|].
      intros [H|[[_ H]|H]]; congruence.
  - simpl. destruct (String.eqb_spec t "OPERATOR") as [-> | Hop].
    + tauto.
    + split; [discriminate|].
      intros [H|[[H _]|H]]; congruence.
Qed.

(** Each turn of the loop records the type of its token and, unless the token
    is an operator (whose text may have been rewritten), its text. *)
Lemma process_token_previous {V : Type} (st st' : parser_state)
  (kind text : string) (constants : gmap string float)
  (functions : gmap string V) (precedence : gmap string Z)
  (right_associative : gset string) :
  process_token st (kind, text) constants functions precedence
    right_associative = inr st' ->
  previous_token_type st' = Some kind
  /\ (kind <> "OPERATOR" -> previous_token_value st' = Some text).
Proof.
  unfold process_token. intros H.
  repeat match type of H with
  | (if String.eqb ?a ?b then _ else _) = _ => destruct (String.eqb_spec a b)
  | bind ?m _ = _ => destruct m as [?|?]; simpl in H
  | (let '(_, _) := ?p in _) = _ => destruct p
  end; try discriminate; injection H as <-; simpl; split; congruence.
Qed.

Lemma process_tokens_snoc {V : Type} (st : parser_state) (init : list token)
  (tok : token) (constants : gmap string float) (functions : gmap string V)
  (precedence : gmap string Z) (right_associative : gset string) :
  process_tokens st (init ++ [tok]) constants functions precedence
    right_associative
  = (let* st' :=
       process_tokens st init constants functions precedence
         right_associative in
     process_token st' tok constants functions precedence right_associative).
Proof.
  revert st. induction init as [|t init IH]; intros st; simpl.
  - now destruct (process_token st tok _ _ _ _).
  - destruct (process_token st t _ _ _ _) as [e|st1]; simpl; [reflexivity|].
    apply IH.
Qed.

(** After the tokens [before], the state tells whether a sign read next is
    in operator position. *)
Lemma position_after_tokens {V : Type} (before : list token)
  (st : parser_state) (constants : gmap string float)
  (functions : gmap string V) (precedence : gmap string Z)
  (right_associative : gset string) :
  process_tokens initial_state before constants functions precedence
    right_associative = inr st ->
  operator_position (previous_token_type st) (previous_token_value st)
  <-> sign_position before.
Proof.
  intros H. unfold operator_position, sign_position.
  induction before as [|[kind text] init _] using rev_ind.
  - injection H as <-. simpl. tauto.
  - rewrite process_tokens_snoc in H.
    destruct (process_tokens initial_state init _ _ _ _) as [e|st0];
      [discriminate|]. simpl in H.
    apply process_token_previous in H as [Htype Hvalue].
    rewrite Htype. split.
    + intros [H|[[H1 H2]|H]]; [discriminate| |]; right; exists init, kind, text;
        (split; [reflexivity|]).
      * injection H1 as ->. rewrite Hvalue in H2 by discriminate.
        injection H2 as ->. tauto.
      * injection H as ->. tauto.
    + intros [H|(init' & kind' & text' & Heq & Hk)].
      * now destruct init.
      * apply app_inj_tail in Heq as [_ [= <- <-]].
        destruct Hk as [[-> ->]| ->]; [|tauto].
        right. left. rewrite Hvalue by discriminate. tauto.
Qed.

(** What the turn for a sign leaves on top of the operator stack. *)
Lemma sign_pushed {V : Type} (st st' : parser_state) (v : string)
  (constants : gmap string float) (functions : gmap string V)
  (precedence : gmap string Z) (right_associative : gset string) :
  process_token st ("OPERATOR", v) constants functions precedence
    right_associative = inr st' ->
  hd_error (operator_stack st')
  = Some (if should_be_unary "OPERATOR" v (previous_token_type st)
               (previous_token_value st)
          then process_unary_operator v else v).
Proof.
  unfold process_token. cbn [String.eqb Ascii.eqb Bool.eqb].
  cbv iota beta.
  destruct (reduce_while_can_pop _ _ _ _ _ _) as [e|[ops out]];
    [discriminate|].
  simpl. intros [= <-]. reflexivity.
Qed.

(** C6. A [+] or [-] operator token is pushed as a unary sign exactly when it
    is the first token or comes right after an opening parenthesis or an
    operator; so ["3 + -2"] is 1, ["-5 + 3"] is -2, and ["-sin(pi/2)"] is -1
    with a C sine that is 1 at the float nearest to pi/2. *)
Theorem unary_sign_rule (X : Extern) (v : string) (before : list token)
  (st st' : parser_state) :
  v = "+" \/ v = "-" ->
  process_tokens initial_state before create_constants_map
    (create_functions_map X) create_precedence_map
    create_right_associative_set = inr st ->
  process_token st ("OPERATOR", v) create_constants_map
    (create_functions_map X) create_precedence_map
    create_right_associative_set = inr st' ->
  libm_sin X (math_pi / 2) = 1%float ->
  (should_be_unary "OPERATOR" v (previous_token_type st)
     (previous_token_value st) = true <-> sign_position before)
  /\ (sign_position before ->
      hd_error (operator_stack st') = Some (process_unary_operator v))
  /\ (~ sign_position before -> hd_error (operator_stack st') = Some v)
  /\ run X "3 + -2" = Some (inr (VFloat 1))
  /\ run X "-5 + 3" = Some (inr (VFloat (-2)))
  /\ run X "-sin(pi/2)" = Some (inr (VFloat (-1))).
Proof.
  intros Hv Hbefore Hsign Hsin.
  assert (Hiff : should_be_unary "OPERATOR" v (previous_token_type st)
                   (previous_token_value st) = true <-> sign_position before).
  { rewrite (sign_is_unary_iff v _ _ Hv).
    exact (position_after_tokens before st _ _ _ _ Hbefore). }
  apply sign_pushed in Hsign.
  split; [exact Hiff|]. split; [|split].
  - intros Hpos. apply Hiff in Hpos. now rewrite Hpos in Hsign.
  - intros Hpos.
    destruct (should_be_unary _ _ _ _); [|exact Hsign].
    exfalso. apply Hpos, Hiff. reflexivity.
  - destruct X as [sin cos tan log exp pow ? ? ? ? ? ?]. simpl in Hsin.
    vm_compute in Hsin.
    repeat split; vm_compute; try reflexivity.
    rewrite Hsin. reflexivity.
Qed.

Lemma unary_sign_rule_witness :
  (should_be_unary "OPERATOR" "-" (Some "OPERATOR") (Some "+") = true
   <-> sign_position [("NUMBER", "3"); ("OPERATOR", "+")])
  /\ (sign_position [("NUMBER", "3"); ("OPERATOR", "+")] ->
      hd_error ["u-"; "+"] = Some (process_unary_operator "-"))
  /\ (~ sign_position [("NUMBER", "3"); ("OPERATOR", "+")] ->
      hd_error ["u-"; "+"] = Some "-")
  /\ run exact_extern "3 + -2" = Some (inr (VFloat 1))
  /\ run exact_extern "-5 + 3" = Some (inr (VFloat (-2)))
  /\ run exact_extern "-sin(pi/2)" = Some (inr (VFloat (-1))).
Proof.
  exact (unary_sign_rule exact_extern "-"
           [("NUMBER", "3"); ("OPERATOR", "+")]
           (mkState [number_node 3] ["+"] (Some "OPERATOR") (Some "+"))
           (mkState [number_node 3] ["u-"; "+"] (Some "OPERATOR") (Some "u-"))
           (or_intror eq_refl) eq_refl eq_refl eq_refl).
Defined.

(** * Further properties *)

(** ** Lexer: the text of every token *)

Lemma re_match_lang {A : Type} (r : regex) (s : string)
  (k : string -> option A) (x : A) :
  re_match r s k = Some x ->
  exists v rest, s = v +:+ rest /\ k rest = Some x /\ re_lang r v.
Proof.
  revert s k.
  induction r as [text|member|member|r1 IH1 r2 IH2|r1 IH1 r2 IH2|r IH];
    intros s k H; simpl in H.
  - destruct (lit_match_split _ _ _ _ H) as (rest & -> & Hk).
    now exists text, rest.
  - destruct s as [|c s]; [discriminate|].
    destruct (member c) eqn:Hc; [|discriminate].
    exists (String c ""), s. repeat split; auto. now exists c.
  - destruct s as [|c s]; [discriminate|].
    destruct (member c) eqn:Hc; [|discriminate].
    destruct (star_match_split _ _ _ _ H) as (v & rest & -> & Hk & Hv).
    exists (String c v), rest. repeat split; auto. simpl. now rewrite Hc, Hv.
  - destruct (IH1 _ _ H) as (v1 & rest1 & -> & H2 & L1).
    destruct (IH2 _ _ H2) as (v2 & rest2 & -> & Hk & L2).
    exists (v1 +:+ v2), rest2. rewrite app_assoc'. repeat split; auto.
    now exists v1, v2.
  - destruct (re_match r1 s k) as [y|] eqn:E1.
    + injection H as ->. destruct (IH1 _ _ E1) as (v & rest & -> & Hk & L).
      exists v, rest. simpl. auto.
    + destruct (IH2 _ _ H) as (v & rest & -> & Hk & L).
      exists v, rest. simpl. auto.
  - destruct (re_match r s k) as [y|] eqn:E.
    + injection H as ->. destruct (IH _ _ E) as (v & rest & -> & Hk & L).
      exists v, rest. simpl. auto.
    + exists "", s. simpl. auto.
Qed.

Lemma pattern_match_lang (pattern : regex) (expression : string)
  (position : nat) (value : string) (match_end : nat) :
  pattern_match pattern expression position = Some (value, match_end) ->
  re_lang pattern value.
Proof.
  unfold pattern_match. intros H.
  destruct (re_match pattern (str_drop position expression) Some)
    as [rest'|] eqn:E; [|discriminate].
  destruct (re_match_lang _ _ _ _ E) as (v & rest & Hs & Hk & L).
  injection Hk as ->. rewrite Hs in H.
  rewrite length_app', Nat.add_sub, str_take_app in H.
  now injection H as <- _.
Qed.

(** A run of digits is read to its end. *)
Lemma read_digits_run (d rest : string) (acc : Z) (n : nat) :
  str_forall is_digit d = true ->
  (rest = "" \/ exists c r, rest = String c r /\ is_digit c = false) ->
  exists z, read_digits acc n (d +:+ rest) = (z, n + String.length d, rest).
Proof.
  intros Hd Hrest. revert acc n.
  induction d as [|c d IH]; intros acc n.
  - rewrite app_empty_l, Nat.add_0_r.
    destruct Hrest as [-> | (c & r & -> & Hc)]; [now exists acc|].
    exists acc. simpl. unfold is_digit in Hc.
    now destruct (digit_value c).
  - simpl in Hd. apply andb_prop in Hd as [Hc Hd].
    rewrite app_cons. simpl. unfold is_digit in Hc.
    destruct (digit_value c) as [dv|]; [|discriminate].
    destruct (IH Hd (10 * acc + dv)%Z (S n)) as (z & ->).
    exists z. f_equal. f_equal. lia.
Qed.

(** [float] accepts every text that the number pattern matches. *)
Lemma number_text_parses (v : string) :
  re_lang number_pattern v -> exists x, py_float v = inr x.
Proof.
  intros (d1 & v2 & -> & [Ht1 Hd1] & Hopt). unfold py_float.
  destruct Hopt as [-> | (dot & d2 & -> & -> & Ht2 & Hd2)].
  - destruct (read_digits_run d1 "" 0 0 Hd1) as (z & ->); [now left|].
    destruct d1; [discriminate|]. simpl. eauto.
  - destruct (read_digits_run d1 ("." +:+ d2) 0 0 Hd1) as (z & ->).
    { right. now exists "."%char, d2. }
    destruct d1 as [|c1 d1]; [discriminate|]. simpl String.length.
    change ("." +:+ d2) with (String "." d2). cbv iota beta.
    destruct (read_digits_run d2 "" z 0 Hd2) as (m & Hm); [now left|].
    rewrite app_empty_r in Hm. rewrite Hm.
    destruct d2; [discriminate|]. simpl. eauto.
Qed.

Lemma operator_text_symbol (c : ascii) :
  one_of "+-*/^" c = true ->
  one_of_strings binary_symbols (String c "") = true.
Proof. destruct c as [[] [] [] [] [] [] [] []]; vm_compute; congruence. Qed.

Lemma paren_text_symbol (c : ascii) :
  one_of "()" c = true -> one_of_strings ["("; ")"] (String c "") = true.
Proof. destruct c as [[] [] [] [] [] [] [] []]; vm_compute; congruence. Qed.

Lemma token_match_lexical (expression : string) (position : nat)
  (token_type : option string) (value : string) (match_end : nat) :
  match_token_at_position expression position get_compiled_patterns
    = Some (token_type, value, match_end) ->
  match token_type_truthy token_type with
  | Some kind => lexical (kind, value)
  | None => True
  end.
Proof.
  unfold get_compiled_patterns, create_token_patterns. simpl. intros H.
  repeat match type of H with
  | context [pattern_match ?r ?e ?p] =>
      let E := fresh "E" in
      destruct (pattern_match r e p) as [[v n]|] eqn:E;
      [injection H as <- <- <-; apply pattern_match_lang in E|]
  end; try discriminate; simpl; unfold lexical; simpl;
    match goal with
    | L : re_lang _ _ |- _ => rename L into Lang; simpl in Lang
    end.
  - left. split; [reflexivity|]. now apply number_text_parses.
  - right. left. split; [reflexivity|].
    repeat (destruct Lang as [-> | Lang]; [reflexivity|]). now subst.
  - right. right. left. split; [reflexivity|].
    destruct Lang as [-> | ->]; reflexivity.
  - do 3 right. left. split; [reflexivity|].
    destruct Lang as (c & -> & Hc). now apply operator_text_symbol.
  - do 4 right. split; [reflexivity|].
    destruct Lang as (c & -> & Hc). now apply paren_text_symbol.
  - exact I.
Qed.

Lemma tokenize_loop_lexical (expression : string) (fuel position : nat)
  (tokens final : list token) :
  Forall lexical tokens ->
  tokenize_loop fuel expression get_compiled_patterns position tokens
    = Some (inr final) ->
  Forall lexical final.
Proof.
  revert position tokens.
  induction fuel as [|fuel IH]; intros position tokens Hall H; [discriminate|].
  cbn [tokenize_loop] in H.
  destruct (position <? String.length expression); [|now injection H as <-].
  destruct (match_token_at_position expression position get_compiled_patterns)
    as [[[token_type value] match_end]|] eqn:Hm; [|discriminate].
  apply token_match_lexical in Hm.
  apply IH in H; [exact H|].
  destruct (token_type_truthy token_type) as [kind|]; [|exact Hall].
  apply Forall_app. split; [exact Hall|]. now constructor.
Qed.

(** X1. Every token that the lexer returns has one of the five kinds and a
    text of that kind: a NUMBER text that [float] converts, a FUNCTION or
    CONSTANT keyword, one operator character, one parenthesis. *)
Theorem lexer_tokens_are_lexical (expression : string) (tokens : list token) :
  tokenize_expression expression get_compiled_patterns = Some (inr tokens) ->
  Forall lexical tokens.
Proof.
  intros H. apply (tokenize_loop_lexical _ _ _ [] tokens) in H; auto.
Qed.

Lemma lexer_tokens_are_lexical_witness :
  Forall lexical
    [("NUMBER", "1.5"); ("OPERATOR", "*"); ("FUNCTION", "sqrt");
     ("PAREN", "("); ("CONSTANT", "e"); ("PAREN", ")")].
Proof.
  apply (lexer_tokens_are_lexical "1.5 * sqrt(e)"). reflexivity.
Defined.

(** ** Lexer: where it fails *)

Lemma star_match_some {A : Type} (member : ascii -> bool) (s : string)
  (k : string -> option A) :
  (forall s', k s' <> None) -> star_match member s k <> None.
Proof.
  intros Hk. induction s as [|c s IH]; simpl; [apply Hk|].
  destruct (member c); [|apply Hk].
  destruct (star_match member s k); [discriminate|contradiction].
Qed.

Lemma starts_lit (text s : string) : starts (RLit text) s = begins_with text s.
Proof.
  unfold starts. simpl. revert s.
  induction text as [|c text IH]; intros [|d s]; simpl; try reflexivity.
  destruct (Ascii.eqb c d); [apply IH|reflexivity].
Qed.

Lemma starts_alt (r1 r2 : regex) (s : string) :
  starts (RAlt r1 r2) s = starts r1 s || starts r2 s.
Proof. unfold starts. simpl. now destruct (re_match r1 s Some). Qed.

Lemma starts_set (member : ascii -> bool) (c : ascii) (s : string) :
  starts (RSet member) (String c s) = member c.
Proof. unfold starts. simpl. now destruct (member c). Qed.

Lemma starts_plus (member : ascii -> bool) (c : ascii) (s : string) :
  starts (RPlus member) (String c s) = member c.
Proof.
  unfold starts. simpl. destruct (member c); [|reflexivity].
  destruct (star_match member s Some) eqn:E; [reflexivity|].
  now apply star_match_some in E.
Qed.

Lemma starts_number (c : ascii) (s : string) :
  starts number_pattern (String c s) = is_digit c.
Proof.
  unfold starts, number_pattern. cbn [re_match].
  destruct (is_digit c); [|reflexivity].
  match goal with
  | |- context [star_match ?m ?s ?k] => destruct (star_match m s k) eqn:E
  end; [reflexivity|].
  apply star_match_some in E; [contradiction|].
  intros s'. now destruct (lit_match "." s' _).
Qed.

Lemma pattern_match_starts (pattern : regex) (expression : string)
  (position : nat) :
  pattern_match pattern expression position = None
  <-> starts pattern (str_drop position expression) = false.
Proof.
  unfold pattern_match, starts.
  destruct (re_match pattern (str_drop position expression) Some);
    split; congruence.
Qed.

Lemma no_match_iff (expression : string) (position : nat) :
  match_token_at_position expression position get_compiled_patterns = None
  <-> recognised_start (str_drop position expression) = false.
Proof.
  unfold get_compiled_patterns, create_token_patterns. simpl map.
  cbn [match_token_at_position].
  assert (Hstep : forall r kind (tail : option (option string * string * nat)),
            match pattern_match r expression position with
            | Some (value, match_end) => Some (kind, value, match_end)
            | None => tail
            end = None
            <-> starts r (str_drop position expression) = false
                /\ tail = None).
  { intros r kind tail. rewrite <- pattern_match_starts.
    destruct (pattern_match r expression position) as [[v n]|];
      split; [discriminate|intros [? _]; discriminate|auto|tauto]. }
  rewrite !Hstep. clear Hstep.
  destruct (str_drop position expression) as [|c r] eqn:Hrest.
  - simpl. split; [reflexivity|]. intros _. repeat split; reflexivity.
  - rewrite starts_number. unfold function_pattern, constant_pattern,
      operator_pattern, paren_pattern, space_pattern.
    rewrite !starts_alt, !starts_lit, starts_plus, !starts_set.
    unfold recognised_start, function_keywords, constant_keywords.
    cbn [existsb]. rewrite !orb_false_r, !orb_false_iff. tauto.
Qed.

(** X2. No pattern of the program matches at a position exactly when the
    rest of the input there is empty or begins with neither a digit, a
    keyword, an operator character, a parenthesis nor white space. *)
Theorem unmatched_iff_unrecognised (expression : string) (position : nat) :
  match_token_at_position expression position get_compiled_patterns = None
  <-> recognised_start (str_drop position expression) = false.
Proof. exact (no_match_iff expression position). Qed.

(** The loop fails only where no pattern matches, and names the character
    that stands there. *)
Lemma tokenize_loop_error (expression : string)
  (patterns : list (regex * option string)) (fuel position : nat)
  (tokens : list token) (err : exn) :
  tokenize_loop fuel expression patterns position tokens = Some (inl err) ->
  exists q,
    q < String.length expression
    /\ match_token_at_position expression q patterns = None
    /\ err = ValueError (msg_bad_char +:+ str_at expression q).
Proof.
  revert position tokens.
  induction fuel as [|fuel IH]; intros position tokens H; [discriminate|].
  cbn [tokenize_loop] in H.
  destruct (position <? String.length expression) eqn:Hpos; [|discriminate].
  apply Nat.ltb_lt in Hpos.
  destruct (match_token_at_position expression position patterns)
    as [[[token_type value] match_end]|] eqn:Hm.
  - now apply IH in H.
  - injection H as <-. now exists position.
Qed.

(** X3. On every input the lexer ends, either with a list of tokens or with
    the [ValueError] that names the character at a position where nothing
    is recognised. *)
Theorem lexer_outcome (expression : string) :
  (exists tokens,
     tokenize_expression expression get_compiled_patterns = Some (inr tokens))
  \/ (exists q,
        q < String.length expression
        /\ recognised_start (str_drop q expression) = false
        /\ tokenize_expression expression get_compiled_patterns
           = Some (inl (ValueError (msg_bad_char +:+ str_at expression q)))).
Proof.
  destruct (tokenize_expression expression get_compiled_patterns)
    as [[err|tokens]|] eqn:H.
  - right. apply tokenize_loop_error in H as (q & Hq & Hnone & ->).
    exists q. repeat split; auto. now apply no_match_iff.
  - left. now exists tokens.
  - now apply tokenize_expression_ends in H.
Qed.

(** ** Blank input *)

Lemma star_match_all (member : ascii -> bool) (s : string) :
  str_forall member s = true -> star_match member s Some = Some "".
Proof.
  induction s as [|c s IH]; simpl; [reflexivity|].
  intros [Hc Hs]%andb_prop. now rewrite Hc, (IH Hs).
Qed.

Lemma str_take_all (s : string) : str_take (String.length s) s = s.
Proof. induction s as [|c s IH]; simpl; [reflexivity|]. now rewrite IH. Qed.

(** White space begins no token. *)
Lemma space_begins_no_token (c : ascii) (r : string) :
  is_space c = true ->
  re_match number_pattern (String c r) Some = None
  /\ re_match function_pattern (String c r) Some = None
  /\ re_match constant_pattern (String c r) Some = None
  /\ re_match operator_pattern (String c r) Some = None
  /\ re_match paren_pattern (String c r) Some = None.
Proof.
  destruct c as [[] [] [] [] [] [] [] []]; intros H;
    try (vm_compute in H; discriminate H); repeat split; reflexivity.
Qed.

Lemma tokenize_loop_step (fuel : nat) (expression : string)
  (patterns : list (regex * option string)) (position : nat)
  (tokens : list token) :
  tokenize_loop (S fuel) expression patterns position tokens
  = if position <? String.length expression then
      match match_token_at_position expression position patterns with
      | Some (token_type, value, new_position) =>
          tokenize_loop fuel expression patterns new_position
            match token_type_truthy token_type with
            | Some t => tokens ++ [(t, value)]
            | None => tokens
            end
      | None =>
          Some (inl (ValueError (msg_bad_char +:+ str_at expression position)))
      end
    else Some (inr tokens).
Proof. reflexivity. Qed.

Lemma blank_input_has_no_token (expression : string) :
  str_forall is_space expression = true ->
  tokenize_expression expression get_compiled_patterns = Some (inr []).
Proof.
  destruct expression as [|c r]; [reflexivity|].
  intros Hall. pose proof Hall as Hc. simpl in Hc.
  apply andb_prop in Hc as [Hc Hr].
  destruct (space_begins_no_token c r Hc) as (N1 & N2 & N3 & N4 & N5).
  assert (Hm : match_token_at_position (String c r) 0 get_compiled_patterns
               = Some (None, String c r, String.length (String c r))).
  { unfold get_compiled_patterns, create_token_patterns. simpl map.
    cbn [match_token_at_position]. unfold pattern_match.
    cbn [str_drop]. rewrite N1, N2, N3, N4, N5.
    cbn [space_pattern re_match]. rewrite Hc, (star_match_all _ _ Hr).
    cbn [String.length]. rewrite Nat.sub_0_r.
    change (S (String.length r)) with (String.length (String c r)).
    now rewrite str_take_all. }
  unfold tokenize_expression.
  rewrite tokenize_loop_step, Hm. cbn [token_type_truthy].
  replace (0 <? String.length (String c r)) with true by reflexivity.
  cbn [String.length]. rewrite tokenize_loop_step.
  cbn [String.length]. now rewrite Nat.ltb_irrefl.
Qed.

(** X4. An input that is empty or all white space has no token, and the
    parser rejects it with its own tree error, whatever the tables. *)
Theorem blank_input_is_a_tree_error (G : globals) (expression : string)
  (constants : gmap string float) (functions : gmap string unary_behavior)
  (operations : gmap string binary_behavior) (precedence : gmap string Z)
  (right_associative : gset string) :
  str_forall is_space expression = true ->
  calculate_expression G expression get_compiled_patterns constants functions
    operations precedence right_associative
  = Some (inl (ValueError msg_tree)).
Proof.
  intros H. unfold calculate_expression.
  now rewrite (blank_input_has_no_token _ H).
Qed.

Lemma blank_input_is_a_tree_error_witness :
  run exact_extern "    " = Some (inl (ValueError msg_tree)).
Proof.
  exact (blank_input_is_a_tree_error (main_globals exact_extern) "    "
           create_constants_map (create_functions_map exact_extern)
           (create_operations_map exact_extern) create_precedence_map
           create_right_associative_set eq_refl).
Defined.

(** ** The keys of the tables *)

Lemma one_of_strings_In (symbols : list string) (s : string) :
  one_of_strings symbols s = true <-> In s symbols.
Proof.
  unfold one_of_strings. rewrite existsb_exists. split.
  - intros (x & Hin & ->%String.eqb_eq). exact Hin.
  - intros Hin. exists s. split; [exact Hin|apply String.eqb_refl].
Qed.

Ltac keys_of_table :=
  intros s; unfold dict_has;
  repeat (rewrite lookup_insert; destruct (decide (_ = s)) as [<-|?];
          [reflexivity|]);
  rewrite lookup_singleton; destruct (decide (_ = s)) as [<-|?];
  [reflexivity|];
  symmetry; apply not_true_is_false; rewrite one_of_strings_In; simpl; intuition.

Lemma function_table_keys (X : Extern) :
  forall s, dict_has (create_functions_map X) s
            = one_of_strings function_keywords s.
Proof. unfold create_functions_map. keys_of_table. Qed.

Lemma constant_table_keys :
  forall s, dict_has create_constants_map s
            = one_of_strings constant_keywords s.
Proof. unfold create_constants_map. keys_of_table. Qed.

Lemma operation_table_keys (X : Extern) :
  forall s, dict_has (create_operations_map X) s
            = one_of_strings binary_symbols s.
Proof. unfold create_operations_map. keys_of_table. Qed.

Lemma precedence_table_keys :
  forall s, dict_has create_precedence_map s
            = one_of_strings (binary_symbols ++ unary_symbols) s.
Proof. unfold create_precedence_map. keys_of_table. Qed.

(** X5. The patterns and the tables agree: the function table has exactly
    the keywords of the FUNCTION pattern as keys, the constants map exactly
    those of the CONSTANT pattern, and the operator map exactly the
    characters of the OPERATOR pattern, each of which has a precedence. *)
Theorem patterns_and_tables_agree (X : Extern) (s : string) :
  (dict_has (create_functions_map X) s = true <-> re_lang function_pattern s)
  /\ (dict_has create_constants_map s = true <-> re_lang constant_pattern s)
  /\ (dict_has (create_operations_map X) s = true
      <-> re_lang operator_pattern s)
  /\ (re_lang operator_pattern s -> dict_has create_precedence_map s = true).
Proof.
  rewrite function_table_keys, constant_table_keys, operation_table_keys,
    precedence_table_keys, !one_of_strings_In.
  assert (Hop : re_lang operator_pattern s <-> In s binary_symbols).
  { unfold operator_pattern. cbn [re_lang]. split.
    - intros (c & -> & Hc). apply one_of_strings_In.
      now apply operator_text_symbol.
    - intros [<-|[<-|[<-|[<-|[<-|[]]]]]]; eexists; split; reflexivity. }
  split; [|split; [|split]].
  - unfold function_pattern. cbn [re_lang In function_keywords].
    intuition congruence.
  - unfold constant_pattern. cbn [re_lang In constant_keywords].
    intuition congruence.
  - symmetry. exact Hop.
  - intros H%Hop. apply in_or_app. now left.
Qed.

(** ** Parser: what it keeps on its stacks *)

Section parser_on_lexer_tokens.

Context {V : Type}.
Variable functions : gmap string V.
Hypothesis function_keys :
  forall s, dict_has functions s = one_of_strings function_keywords s.

Lemma well_formed_function (symbol : string) (a : Node) :
  well_formed (create_function_node symbol a)
  = one_of_strings function_keywords symbol && well_formed a.
Proof using Type. reflexivity. Qed.

Lemma well_formed_unary (symbol : string) (a : Node) :
  well_formed (create_unary_node symbol a)
  = one_of_strings unary_symbols symbol && well_formed a.
Proof using Type. reflexivity. Qed.

Lemma well_formed_operator (symbol : string) (a b : Node) :
  well_formed (create_operator_node symbol a b)
  = one_of_strings binary_symbols symbol && well_formed a && well_formed b.
Proof using Type. reflexivity. Qed.

Lemma create_node_for_ok (operator : string) (out : list Node) :
  stack_symbol operator = true ->
  String.eqb operator "(" = false ->
  nodes_ok out ->
  match create_node_for operator out functions with
  | inr out' => nodes_ok out'
  | inl e => e = pop_error
  end.
Proof using function_keys.
  intros Hs Hp Hout. unfold create_node_for. rewrite function_keys.
  unfold stack_symbol in Hs. rewrite Hp in Hs. cbn [orb] in Hs.
  assert (Hu : one_of_strings unary_symbols operator
               = String.eqb operator "u-" || String.eqb operator "u+").
  { unfold one_of_strings, unary_symbols. cbn [existsb].
    now rewrite orb_false_r. }
  rewrite Hu in Hs.
  destruct (one_of_strings function_keywords operator) eqn:Hf.
  - destruct Hout as [|a out Ha Hout]; [reflexivity|].
    cbn [pop_node bind]. constructor; [|exact Hout].
    now rewrite well_formed_function, Hf, Ha.
  - destruct (String.eqb operator "u-" || String.eqb operator "u+") eqn:Hsign.
    + destruct Hout as [|a out Ha Hout]; [reflexivity|].
      cbn [pop_node bind]. constructor; [|exact Hout].
      now rewrite well_formed_unary, Hu, ?Hsign, Ha.
    + cbn [orb] in Hs. rewrite orb_false_r in Hs.
      destruct Hout as [|b out Hb Hout]; [reflexivity|].
      destruct Hout as [|a out Ha Hout]; [reflexivity|].
      cbn [pop_node bind]. constructor; [|exact Hout].
      now rewrite well_formed_operator, Hs, Ha, Hb.
Qed.

Lemma precedence_defined (s : string) :
  one_of_strings (binary_symbols ++ unary_symbols) s = true ->
  exists rank, create_precedence_map !! s = Some rank.
Proof using Type.
  rewrite <- precedence_table_keys. unfold dict_has.
  destruct (create_precedence_map !! s) as [rank|]; [eauto|discriminate].
Qed.

Lemma can_pop_ok (current : string) (ops : list string) :
  one_of_strings (binary_symbols ++ unary_symbols) current = true ->
  exists go,
    can_pop_operator current ops create_precedence_map
      create_right_associative_set = inr go
    /\ (go = true ->
        exists top rest, ops = top :: rest /\ String.eqb top "(" = false).
Proof using Type.
  intros (rank & Hrank)%precedence_defined. unfold can_pop_operator.
  destruct ops as [|top rest]; [exists false; split; [reflexivity|discriminate]|].
  destruct (String.eqb top "(") eqn:Hp;
    [exists false; split; [reflexivity|discriminate]|].
  destruct (create_precedence_map !! top) as [top_rank|];
    [|exists false; split; [reflexivity|discriminate]].
  rewrite Hrank.
  destruct (rank <? top_rank)%Z; [|destruct (top_rank =? rank)%Z];
    eexists; (split; [reflexivity|]); intros _; eauto.
Qed.

Lemma reduce_while_can_pop_ok (current : string) (ops : list string)
  (out : list Node) :
  one_of_strings (binary_symbols ++ unary_symbols) current = true ->
  stack_ok ops -> nodes_ok out ->
  match reduce_while_can_pop current ops out functions create_precedence_map
          create_right_associative_set with
  | inr (ops', out') => stack_ok ops' /\ nodes_ok out'
  | inl e => e = pop_error
  end.
Proof using function_keys.
  intros Hcur. revert out.
  induction ops as [|top rest IH]; intros out Hops Hout.
  - cbn. now split.
  - cbn [reduce_while_can_pop].
    destruct (can_pop_ok current (top :: rest) Hcur) as (go & -> & Hgo).
    cbn [bind]. destruct go; [|now split].
    destruct (Hgo eq_refl) as (top' & rest' & [= <- <-] & Hp).
    inversion Hops as [|? ? Htop Hrest]; subst.
    unfold pop_operator_and_create_node.
    pose proof (create_node_for_ok top out Htop Hp Hout) as Hnode.
    destruct (create_node_for top out functions) as [e|out']; cbn [bind];
      [exact Hnode|].
    now apply IH.
Qed.

Lemma reduce_to_parenthesis_ok (ops : list string) (out : list Node) :
  stack_ok ops -> nodes_ok out ->
  match reduce_to_parenthesis ops out functions create_precedence_map with
  | inr (ops', out') => stack_ok ops' /\ nodes_ok out'
  | inl e => e = pop_error
  end.
Proof using function_keys.
  revert out. induction ops as [|top rest IH]; intros out Hops Hout.
  - cbn. now split.
  - cbn [reduce_to_parenthesis].
    destruct (String.eqb top "(") eqn:Hp; [now split|].
    inversion Hops as [|? ? Htop Hrest]; subst.
    unfold pop_operator_and_create_node.
    pose proof (create_node_for_ok top out Htop Hp Hout) as Hnode.
    destruct (create_node_for top out functions) as [e|out']; cbn [bind];
      [exact Hnode|].
    now apply IH.
Qed.

Lemma process_right_parenthesis_ok (ops : list string) (out : list Node) :
  stack_ok ops -> nodes_ok out ->
  match process_right_parenthesis ops out functions create_precedence_map with
  | inr (ops', out') => stack_ok ops' /\ nodes_ok out'
  | inl e => parse_error e
  end.
Proof using function_keys.
  intros Hops Hout. unfold process_right_parenthesis.
  pose proof (reduce_to_parenthesis_ok ops out Hops Hout) as H.
  destruct (reduce_to_parenthesis ops out functions create_precedence_map)
    as [e|[ops1 out1]]; cbn [bind]; [now left|].
  destruct H as [Hops1 Hout1].
  destruct ops1 as [|paren ops2]; [right; now left|].
  inversion Hops1 as [|? ? _ Hops2]; subst.
  destruct ops2 as [|func ops3]; [now split|].
  rewrite function_keys.
  destruct (one_of_strings function_keywords func) eqn:Hf; [|now split].
  destruct Hout1 as [|a out2 Ha Hout2]; [now left|].
  cbn [pop_node bind]. inversion Hops2; subst. split; [assumption|].
  constructor; [|exact Hout2]. now rewrite well_formed_function, Hf, Ha.
Qed.

Lemma reduce_all_ok (ops : list string) (out : list Node) :
  stack_ok ops -> nodes_ok out ->
  match reduce_all ops out functions create_precedence_map with
  | inr out' => nodes_ok out'
  | inl e => parse_error e
  end.
Proof using function_keys.
  revert out. induction ops as [|top rest IH]; intros out Hops Hout.
  - exact Hout.
  - cbn [reduce_all].
    destruct (String.eqb top "(") eqn:Hp; [right; now left|].
    inversion Hops as [|? ? Htop Hrest]; subst.
    unfold pop_operator_and_create_node.
    pose proof (create_node_for_ok top out Htop Hp Hout) as Hnode.
    destruct (create_node_for top out functions) as [e|out']; cbn [bind];
      [now left|].
    now apply IH.
Qed.

Lemma process_token_ok (st : parser_state) (tok : token) :
  lexical tok -> state_ok st ->
  match process_token st tok create_constants_map functions
          create_precedence_map create_right_associative_set with
  | inr st' => state_ok st'
  | inl e => parse_error e
  end.
Proof using function_keys.
  destruct tok as [kind text]. unfold lexical. cbn [fst snd].
  intros Hlex [Hops Hout]. unfold process_token.
  destruct Hlex as [[-> (x & Hx)]|[[-> Hk]|[[-> Hk]|[[-> Hk]|[-> Hk]]]]];
    cbn [String.eqb Ascii.eqb Bool.eqb]; cbv iota.
  - unfold create_number_node. rewrite Hx. cbn.
    split; [exact Hops|]. now constructor.
  - split; [|exact Hout]. constructor; [|exact Hops].
    unfold stack_symbol. now rewrite Hk, orb_true_r.
  - unfold create_constant_node.
    rewrite <- constant_table_keys in Hk. unfold dict_has in Hk.
    destruct (create_constants_map !! text); [|discriminate]. cbn.
    split; [exact Hops|]. now constructor.
  - set (value := if should_be_unary _ _ _ _ then _ else _).
    assert (Hvalue : one_of_strings (binary_symbols ++ unary_symbols) value
                     = true).
    { subst value. destruct (should_be_unary _ _ _ _).
      - unfold process_unary_operator. now destruct (String.eqb text "-").
      - apply one_of_strings_In, in_or_app. left.
        now apply one_of_strings_In. }
    pose proof (reduce_while_can_pop_ok value _ _ Hvalue Hops Hout) as H.
    destruct (reduce_while_can_pop value _ _ _ _ _) as [e|[ops' out']];
      cbn [bind]; [now left|].
    destruct H as [Hops' Hout']. split; [|exact Hout'].
    constructor; [|exact Hops'].
    unfold stack_symbol.
    apply one_of_strings_In, in_app_or in Hvalue as [H|H];
      apply one_of_strings_In in H; rewrite H; now rewrite ?orb_true_r.
  - apply one_of_strings_In in Hk as [<-|[<-|[]]];
      cbn [String.eqb Ascii.eqb Bool.eqb]; cbv iota.
    + split; [|exact Hout]. now constructor.
    + pose proof (process_right_parenthesis_ok _ _ Hops Hout) as H.
      destruct (process_right_parenthesis _ _ _ _) as [e|[ops' out']];
        cbn [bind]; [exact H|exact H].
Qed.

Lemma process_tokens_ok (tokens : list token) (st : parser_state) :
  Forall lexical tokens -> state_ok st ->
  match process_tokens st tokens create_constants_map functions
          create_precedence_map create_right_associative_set with
  | inr st' => state_ok st'
  | inl e => parse_error e
  end.
Proof using function_keys.
  intros Hall. revert st.
  induction Hall as [|tok tokens Htok Hall IH]; intros st Hst; [exact Hst|].
  cbn [process_tokens].
  pose proof (process_token_ok st tok Htok Hst) as H.
  destruct (process_token st tok _ _ _ _) as [e|st']; cbn [bind];
    [exact H|now apply IH].
Qed.

Lemma build_syntax_tree_ok (tokens : list token) :
  Forall lexical tokens ->
  match build_syntax_tree tokens create_constants_map functions
          create_precedence_map create_right_associative_set with
  | inr tree => well_formed tree = true
  | inl e => parse_error e
  end.
Proof using function_keys.
  intros Hall. unfold build_syntax_tree.
  pose proof (process_tokens_ok tokens initial_state Hall) as H.
  destruct (process_tokens initial_state tokens _ _ _ _) as [e|st];
    cbn [bind]; [apply H; split; constructor|].
  destruct H as [Hops Hout]; [split; constructor|].
  pose proof (reduce_all_ok _ _ Hops Hout) as H.
  destruct (reduce_all _ _ _ _) as [e|out]; cbn [bind]; [exact H|].
  destruct H as [|tree out Htree Hrest]; [right; now right|].
  destruct Hrest; [exact Htree|right; now right].
Qed.

End parser_on_lexer_tokens.

(** X6. On tokens as the lexer makes them the parser either returns a tree
    that is well formed (float leaves, operator nodes with a binary symbol
    and both children, function and sign nodes with their symbol and one
    child) or fails in one of three ways: a pop from an empty stack, the
    unbalanced-parentheses error, the tree error.  It raises no [KeyError]
    and no conversion error. *)
Theorem parser_outcome (X : Extern) (tokens : list token) :
  Forall lexical tokens ->
  match build_syntax_tree tokens create_constants_map (create_functions_map X)
          create_precedence_map create_right_associative_set with
  | inr tree => well_formed tree = true
  | inl e => parse_error e
  end.
Proof.
  apply build_syntax_tree_ok, function_table_keys.
Qed.

Lemma parser_outcome_witness :
  well_formed (create_unary_node "u-" two_plus_three) = true.
Proof.
  assert (H : Forall lexical
                [("OPERATOR", "-"); ("PAREN", "("); ("NUMBER", "2");
                 ("OPERATOR", "+"); ("NUMBER", "3"); ("PAREN", ")")]).
  { apply (tokenize_loop_lexical "-(2+3)" 7 0 []); [constructor|reflexivity]. }
  exact (parser_outcome exact_extern _ H).
Defined.

(** ** Evaluator: what a well-formed tree evaluates to *)

(** Induction on a node, with the hypothesis for each child that is there. *)
Lemma Node_children_ind (P : Node -> Prop) :
  (forall kind value l r,
     (forall n, l = Some n -> P n) -> (forall n, r = Some n -> P n) ->
     P (mkNode kind value l r)) ->
  forall node, P node.
Proof.
  intros H. fix IH 1. intros [kind value l r]. apply H.
  - destruct l as [n'|]; intros n E; [|discriminate].
    injection E as <-. apply IH.
  - destruct r as [n'|]; intros n E; [|discriminate].
    injection E as <-. apply IH.
Qed.

Lemma evaluate_function (G : globals) (symbol : string) (argument : Node)
  (operations global : gmap string binary_behavior)
  (functions : gmap string unary_behavior) :
  global_operations G = Some global ->
  evaluate_expression_tree G (create_function_node symbol argument)
    operations functions
  = (let* argument_value :=
       evaluate_expression_tree G argument global functions in
     let* behavior := dict_get functions (VStr symbol) in
     behavior argument_value).
Proof.
  intros H. cbn -[dict_get]. unfold evaluate_function_node. cbn -[dict_get].
  rewrite H. reflexivity.
Qed.

Lemma math_1_outcome (func : float -> float) (can_overflow : bool) (x : float) :
  match math_1 func can_overflow x with
  | inr _ => True
  | inl e => math_error e
  end.
Proof.
  unfold math_1, math_error.
  destruct (is_nan (func x) && negb (is_nan x)); [now left|].
  destruct (is_infinity (func x) && is_finite x); [|exact I].
  destruct can_overflow; [now right|now left].
Qed.

Lemma raised_power_error (without_power : bool) (e : arith_error) :
  without_power = false ->
  evaluation_result without_power (inl (raised e)).
Proof.
  intros H. right. split; [exact H|]. unfold power_error.
  destruct e; simpl; eauto.
Qed.

Lemma evaluation_result_and (p q : bool) (r : result pyval) :
  evaluation_result p r ->
  evaluation_result (p && q) r /\ evaluation_result (q && p) r.
Proof.
  destruct r as [e|v]; simpl; intros [H|[-> H]]; split; auto; right;
    now rewrite ?andb_false_r.
Qed.

(** Finishes a goal on the result of one operator or function. *)
Ltac result_known :=
  cbn [evaluation_result bind of_complex of_number];
  solve
    [ left; eexists; reflexivity
    | left; assumption
    | right; split; [reflexivity|]; do 2 eexists; reflexivity
    | right; split; [reflexivity|]; unfold power_error; eauto 6 ].

(** The outcome of a function of the table. *)
Lemma function_outcome (X : Extern) (symbol : string) (p : bool) (a : pyval) :
  one_of_strings function_keywords symbol = true ->
  evaluation_result p (inr a) ->
  exists behavior,
    dict_get (create_functions_map X) (VStr symbol) = inr behavior
    /\ evaluation_result p (behavior a).
Proof.
  intros Hk Ha. apply one_of_strings_In in Hk.
  assert (Hm : forall f overflow,
            evaluation_result p (on_float (math_1 f overflow) a)).
  { intros f overflow. destruct Ha as [(x & ->)|(-> & re & im & ->)].
    - unfold on_float. pose proof (math_1_outcome f overflow x) as H.
      destruct (math_1 f overflow x); cbn [bind]; [now left|].
      left. now eexists.
    - cbn [on_float]. result_known. }
  destruct Hk as [<-|[<-|[<-|[<-|[<-|[<-|[<-|[]]]]]]]].
  - exists (on_float (math_sin X)). split; [vm_compute; reflexivity|apply Hm].
  - exists (on_float (math_cos X)). split; [vm_compute; reflexivity|apply Hm].
  - exists (on_float (math_tan X)). split; [vm_compute; reflexivity|apply Hm].
  - exists fn_sqrt. split; [vm_compute; reflexivity|].
    destruct Ha as [(x & ->)|(-> & re & im & ->)]; cbn [fn_sqrt].
    + destruct (0 <=? x)%float; result_known.
    + result_known.
  - exists (on_float (math_log X)). split; [vm_compute; reflexivity|apply Hm].
  - exists (on_float (math_exp X)). split; [vm_compute; reflexivity|apply Hm].
  - exists (fn_abs X). split; [vm_compute; reflexivity|].
    destruct Ha as [(x & ->)|(-> & re & im & ->)]; cbn [fn_abs].
    + result_known.
    + destruct (complex_abs X re im); result_known.
Qed.

(** The outcome of an operator of the table. *)
Lemma operation_outcome (X : Extern) (symbol : string) (p q : bool)
  (a b : pyval) :
  one_of_strings binary_symbols symbol = true ->
  evaluation_result p (inr a) -> evaluation_result q (inr b) ->
  exists behavior,
    dict_get (create_operations_map X) (VStr symbol) = inr behavior
    /\ evaluation_result (negb (String.eqb symbol "^") && p && q)
         (behavior a b).
Proof.
  intros Hk Ha Hb. apply one_of_strings_In in Hk.
  destruct Hk as [<-|[<-|[<-|[<-|[<-|[]]]]]];
    [exists (op_add X)|exists (op_sub X)|exists (op_mul X)|exists (op_div X)
    |exists (op_pow X)];
    (split; [vm_compute; reflexivity|]);
    destruct Ha as [(x & ->)|(-> & re & im & ->)];
    destruct Hb as [(y & ->)|(-> & re' & im' & ->)];
    rewrite ?andb_false_r; unfold op_add, op_sub, op_mul, op_div, op_pow;
    cbn [op_add op_sub op_mul op_div op_pow arithmetic as_number
           differs_from_zero String.eqb Ascii.eqb Bool.eqb negb andb];
    repeat match goal with
    | |- context [if ?c then _ else _] => destruct c
    | |- context [float_pow X ?u ?v] =>
        destruct (float_pow X u v) as [[]|[]]
    | |- context [complex_pow X ?u ?v] =>
        destruct (complex_pow X u v) as [[]|]
    end;
    cbn [raised]; result_known.
Qed.

Lemma well_formed_cases (node : Node) :
  well_formed node = true ->
  (exists x, node = number_node x)
  \/ (exists symbol a b,
        node = create_operator_node symbol a b
        /\ one_of_strings binary_symbols symbol = true
        /\ well_formed a = true /\ well_formed b = true)
  \/ (exists symbol a,
        node = create_function_node symbol a
        /\ one_of_strings function_keywords symbol = true
        /\ well_formed a = true)
  \/ (exists symbol a,
        node = create_unary_node symbol a
        /\ one_of_strings unary_symbols symbol = true
        /\ well_formed a = true).
Proof.
  destruct node as [kind value l r]. cbn [well_formed].
  destruct (String.eqb_spec kind "NUMBER") as [-> |_].
  { destruct value, l, r; try discriminate. left. now eexists. }
  destruct (String.eqb_spec kind "OPERATOR") as [-> |_].
  { destruct value as [| |symbol|], l as [a|], r as [b|]; try discriminate.
    intros [[H1 H2]%andb_prop H3]%andb_prop.
    right. left. now exists symbol, a, b. }
  destruct (String.eqb_spec kind "FUNCTION") as [-> |_].
  { destruct value as [| |symbol|], l as [a|], r as [b|]; try discriminate.
    intros [H1 H2]%andb_prop. right. right. left. now exists symbol, a. }
  destruct (String.eqb_spec kind "UNARY") as [-> |_]; [|discriminate].
  destruct value as [| |symbol|], l as [a|], r as [b|]; try discriminate.
  intros [H1 H2]%andb_prop. right. right. right. now exists symbol, a.
Qed.

Lemma power_free_operator (symbol : string) (a b : Node) :
  power_free (create_operator_node symbol a b)
  = negb (String.eqb symbol "^") && power_free a && power_free b.
Proof. reflexivity. Qed.

Lemma power_free_function (symbol : string) (a : Node) :
  power_free (create_function_node symbol a) = power_free a.
Proof. cbn. now rewrite andb_true_r. Qed.

Lemma power_free_unary (symbol : string) (a : Node) :
  power_free (create_unary_node symbol a) = power_free a.
Proof. cbn. now rewrite andb_true_r. Qed.

Lemma well_formed_tree_outcome (X : Extern) (node : Node) :
  well_formed node = true ->
  evaluation_result (power_free node)
    (evaluate_expression_tree (main_globals X) node
       (create_operations_map X) (create_functions_map X)).
Proof.
  induction node as [kind value l r IHl IHr] using Node_children_ind.
  intros Hwf.
  destruct (well_formed_cases _ Hwf)
    as [(x & H)
       |[(symbol & a & b & H & Hs & Ha & Hb)
        |[(symbol & a & H & Hs & Ha)|(symbol & a & H & Hs & Ha)]]];
    rewrite H.
  - left. now exists x.
  - injection H as _ _ Hl Hr.
    rewrite (evaluate_operator (main_globals X) symbol a b _ _
               (create_functions_map X) eq_refl).
    rewrite power_free_operator.
    specialize (IHl a Hl Ha). specialize (IHr b Hr Hb).
    destruct (evaluate_expression_tree _ a _ _) as [e|va].
    { cbn [bind].
      apply (proj1 (evaluation_result_and _ _ _
                      (proj2 (evaluation_result_and _ _ _ IHl)))). }
    destruct (evaluate_expression_tree _ b _ _) as [e|vb].
    { cbn [bind]. apply (proj2 (evaluation_result_and _ _ _ IHr)). }
    cbn [bind].
    destruct (operation_outcome X symbol _ _ va vb Hs IHl IHr)
      as (behavior & -> & Hout).
    exact Hout.
  - injection H as _ _ Hl _.
    rewrite (evaluate_function (main_globals X) symbol a _
               (create_operations_map X) _ eq_refl).
    rewrite power_free_function.
    specialize (IHl a Hl Ha).
    destruct (evaluate_expression_tree _ a _ _) as [e|va]; [exact IHl|].
    cbn [bind].
    destruct (function_outcome X symbol _ va Hs IHl) as (behavior & -> & Hout).
    exact Hout.
  - injection H as _ _ Hl _.
    rewrite (evaluate_unary (main_globals X) symbol a _
               (create_operations_map X) _ (create_functions_map X)
               eq_refl eq_refl).
    rewrite power_free_unary.
    specialize (IHl a Hl Ha).
    destruct (evaluate_expression_tree _ a _ _) as [e|va]; [exact IHl|].
    cbn [bind].
    destruct (String.eqb symbol "u-"); [|exact IHl].
    destruct IHl as [(x & ->)|(Hp & re & im & ->)]; cbn [py_neg].
    + left. now eexists.
    + right. split; [exact Hp|]. now do 2 eexists.
Qed.

(** X7. Under the [__main__] bindings a well-formed tree without a power
    evaluates to a float, or fails with the domain or the range error of the
    [math] module.  With a power in it, it can also evaluate to a complex
    number (a negative base with a fractional exponent), or fail with
    [ZeroDivisionError], [OverflowError], or the [TypeError] of a function
    that is given a complex number.  No well-formed tree raises [KeyError],
    [NameError] or [AttributeError], or meets an unknown node type. *)
Theorem evaluation_outcome (X : Extern) (node : Node) :
  well_formed node = true ->
  evaluation_result (power_free node)
    (evaluate_expression_tree (main_globals X) node
       (create_operations_map X) (create_functions_map X)).
Proof. exact (well_formed_tree_outcome X node). Qed.

Lemma evaluation_outcome_witness :
  well_formed two_to_three_to_two = true
  /\ evaluation_result (power_free two_to_three_to_two)
       (evaluate_expression_tree (main_globals exact_extern)
          two_to_three_to_two (create_operations_map exact_extern)
          (create_functions_map exact_extern)).
Proof.
  split; [reflexivity|].
  exact (evaluation_outcome exact_extern two_to_three_to_two eq_refl).
Defined.

(** ** The pipeline: every way it can end *)

(** An input without the character [^] has no token [^]. *)
Lemma str_forall_filter (P p : ascii -> bool) (s : string) :
  str_forall P s = true -> str_forall P (str_filter p s) = true.
Proof.
  induction s as [|c s IH]; simpl; [reflexivity|].
  intros [Hc Hs]%andb_prop. destruct (p c); simpl; [rewrite Hc|]; auto.
Qed.

Lemma join_texts_forall (P : ascii -> bool) (tokens : list token) :
  str_forall P (join_texts tokens) = true ->
  Forall (fun tok : token => str_forall P tok.2 = true) tokens.
Proof.
  induction tokens as [|[kind text] tokens IH]; simpl; [constructor|].
  rewrite str_forall_app. intros [Ht Hrest]%andb_prop.
  constructor; [exact Ht|now apply IH].
Qed.

Lemma tokens_without_power (expression : string) (tokens : list token) :
  tokenize_expression expression get_compiled_patterns = Some (inr tokens) ->
  power_free_text expression = true ->
  Forall (fun tok : token => String.eqb tok.2 "^" = false) tokens.
Proof.
  intros Hlex Hfree. apply tokenize_loop_texts in Hlex.
  cbn [join_texts str_drop] in Hlex. rewrite app_empty_l in Hlex.
  apply (str_forall_filter _ not_space) in Hfree.
  fold (without_whitespace expression) in Hfree. rewrite <- Hlex in Hfree.
  apply join_texts_forall in Hfree.
  eapply Forall_impl; [exact Hfree|].
  intros [kind text]. cbn [snd].
  destruct (String.eqb_spec text "^") as [-> |]; [discriminate|reflexivity].
Qed.

(** The parser puts a power into a tree only for a token [^]. *)
Section parser_without_power.

Context {V : Type}.
Variable constants : gmap string float.
Variable functions : gmap string V.
Variable precedence : gmap string Z.
Variable right_associative : gset string.

Lemma create_node_for_free (operator : string) (out : list Node) :
  String.eqb operator "^" = false ->
  nodes_without_power out ->
  match create_node_for operator out functions with
  | inr out' => nodes_without_power out'
  | inl _ => True
  end.
Proof using Type.
  intros Hop Hout. unfold create_node_for.
  destruct (dict_has functions operator);
    [|destruct (String.eqb operator "u-" || String.eqb operator "u+")].
  - destruct Hout as [|a out Ha Hout]; [exact I|].
    cbn [pop_node bind]. constructor; [|exact Hout].
    now rewrite power_free_function.
  - destruct Hout as [|a out Ha Hout]; [exact I|].
    cbn [pop_node bind]. constructor; [|exact Hout].
    now rewrite power_free_unary.
  - destruct Hout as [|b out Hb Hout]; [exact I|].
    destruct Hout as [|a out Ha Hout]; [exact I|].
    cbn [pop_node bind]. constructor; [|exact Hout].
    now rewrite power_free_operator, Hop, Ha, Hb.
Qed.

Lemma reduce_while_can_pop_free (current : string) (ops : list string)
  (out : list Node) :
  stack_without_power ops -> nodes_without_power out ->
  match reduce_while_can_pop current ops out functions precedence
          right_associative with
  | inr (ops', out') => stack_without_power ops' /\ nodes_without_power out'
  | inl _ => True
  end.
Proof using Type.
  revert out. induction ops as [|top rest IH]; intros out Hops Hout.
  - cbn. now split.
  - cbn [reduce_while_can_pop].
    destruct (can_pop_operator current (top :: rest) precedence
                right_associative) as [e|go]; cbn [bind]; [exact I|].
    destruct go; [|now split].
    inversion Hops as [|? ? Htop Hrest]; subst.
    unfold pop_operator_and_create_node.
    pose proof (create_node_for_free top out Htop Hout) as Hnode.
    destruct (create_node_for top out functions) as [e|out']; cbn [bind];
      [exact I|].
    now apply IH.
Qed.

Lemma reduce_to_parenthesis_free (ops : list string) (out : list Node) :
  stack_without_power ops -> nodes_without_power out ->
  match reduce_to_parenthesis ops out functions precedence with
  | inr (ops', out') => stack_without_power ops' /\ nodes_without_power out'
  | inl _ => True
  end.
Proof using Type.
  revert out. induction ops as [|top rest IH]; intros out Hops Hout.
  - cbn. now split.
  - cbn [reduce_to_parenthesis].
    destruct (String.eqb top "("); [now split|].
    inversion Hops as [|? ? Htop Hrest]; subst.
    unfold pop_operator_and_create_node.
    pose proof (create_node_for_free top out Htop Hout) as Hnode.
    destruct (create_node_for top out functions) as [e|out']; cbn [bind];
      [exact I|].
    now apply IH.
Qed.

Lemma process_right_parenthesis_free (ops : list string) (out : list Node) :
  stack_without_power ops -> nodes_without_power out ->
  match process_right_parenthesis ops out functions precedence with
  | inr (ops', out') => stack_without_power ops' /\ nodes_without_power out'
  | inl _ => True
  end.
Proof using Type.
  intros Hops Hout. unfold process_right_parenthesis.
  pose proof (reduce_to_parenthesis_free ops out Hops Hout) as H.
  destruct (reduce_to_parenthesis ops out functions precedence)
    as [e|[ops1 out1]]; cbn [bind]; [exact I|].
  destruct H as [Hops1 Hout1].
  destruct ops1 as [|paren ops2]; [exact I|].
  inversion Hops1 as [|? ? _ Hops2]; subst.
  destruct ops2 as [|func ops3]; [now split|].
  destruct (dict_has functions func); [|now split].
  destruct Hout1 as [|a out2 Ha Hout2]; [exact I|].
  cbn [pop_node bind]. inversion Hops2; subst. split; [assumption|].
  constructor; [|exact Hout2]. now rewrite power_free_function.
Qed.

Lemma reduce_all_free (ops : list string) (out : list Node) :
  stack_without_power ops -> nodes_without_power out ->
  match reduce_all ops out functions precedence with
  | inr out' => nodes_without_power out'
  | inl _ => True
  end.
Proof using Type.
  revert out. induction ops as [|top rest IH]; intros out Hops Hout.
  - exact Hout.
  - cbn [reduce_all].
    destruct (String.eqb top "("); [exact I|].
    inversion Hops as [|? ? Htop Hrest]; subst.
    unfold pop_operator_and_create_node.
    pose proof (create_node_for_free top out Htop Hout) as Hnode.
    destruct (create_node_for top out functions) as [e|out']; cbn [bind];
      [exact I|].
    now apply IH.
Qed.

Lemma process_token_free (st : parser_state) (tok : token) :
  String.eqb tok.2 "^" = false ->
  stack_without_power (operator_stack st) ->
  nodes_without_power (output_stack st) ->
  match process_token st tok constants functions precedence
          right_associative with
  | inr st' =>
      stack_without_power (operator_stack st')
      /\ nodes_without_power (output_stack st')
  | inl _ => True
  end.
Proof using Type.
  destruct tok as [kind text]. cbn [snd]. intros Htext Hops Hout.
  unfold process_token.
  destruct (String.eqb kind "NUMBER").
  { unfold create_number_node.
    destruct (py_float text) as [e|x]; cbn [bind]; [exact I|].
    split; [exact Hops|]. now constructor. }
  destruct (String.eqb kind "CONSTANT").
  { unfold create_constant_node.
    destruct (constants !! text) as [x|]; cbn [bind]; [|exact I].
    split; [exact Hops|]. now constructor. }
  destruct (String.eqb kind "FUNCTION").
  { split; [|exact Hout]. now constructor. }
  destruct (String.eqb kind "OPERATOR").
  { set (value := if should_be_unary _ _ _ _ then _ else _).
    assert (Hvalue : String.eqb value "^" = false).
    { subst value. destruct (should_be_unary _ _ _ _); [|exact Htext].
      unfold process_unary_operator. now destruct (String.eqb text "-"). }
    pose proof (reduce_while_can_pop_free value _ _ Hops Hout) as H.
    destruct (reduce_while_can_pop value _ _ _ _ _) as [e|[ops' out']];
      cbn [bind]; [exact I|].
    destruct H as [Hops' Hout']. split; [|exact Hout'].
    now constructor. }
  destruct (String.eqb text "(").
  { split; [|exact Hout]. now constructor. }
  destruct (String.eqb text ")"); [|now split].
  pose proof (process_right_parenthesis_free _ _ Hops Hout) as H.
  destruct (process_right_parenthesis _ _ _ _) as [e|[ops' out']];
    cbn [bind]; [exact I|exact H].
Qed.

Lemma process_tokens_free (tokens : list token) (st : parser_state) :
  Forall (fun tok : token => String.eqb tok.2 "^" = false) tokens ->
  stack_without_power (operator_stack st) ->
  nodes_without_power (output_stack st) ->
  match process_tokens st tokens constants functions precedence
          right_associative with
  | inr st' =>
      stack_without_power (operator_stack st')
      /\ nodes_without_power (output_stack st')
  | inl _ => True
  end.
Proof using Type.
  intros Hall. revert st.
  induction Hall as [|tok tokens Htok Hall IH]; intros st Hops Hout;
    [now split|].
  cbn [process_tokens].
  pose proof (process_token_free st tok Htok Hops Hout) as H.
  destruct (process_token st tok _ _ _ _) as [e|st']; cbn [bind];
    [exact I|now apply IH].
Qed.

Lemma build_syntax_tree_free (tokens : list token) :
  Forall (fun tok : token => String.eqb tok.2 "^" = false) tokens ->
  match build_syntax_tree tokens constants functions precedence
          right_associative with
  | inr tree => power_free tree = true
  | inl _ => True
  end.
Proof using Type.
  intros Hall. unfold build_syntax_tree.
  pose proof (process_tokens_free tokens initial_state Hall) as H.
  destruct (process_tokens initial_state tokens _ _ _ _) as [e|st];
    cbn [bind]; [exact I|].
  destruct H as [Hops Hout]; [constructor|constructor|].
  pose proof (reduce_all_free _ _ Hops Hout) as H.
  destruct (reduce_all _ _ _ _) as [e|out]; cbn [bind]; [exact I|].
  destruct H as [|tree out Htree Hrest]; [exact I|].
  destruct Hrest; [exact Htree|exact I].
Qed.

End parser_without_power.

(** X8. On every input string the pipeline of the [__main__] block ends.
    An input without the character [^] gives a float, or one of: the
    lexer's error for a character, a pop from an empty stack, the parser's
    two errors, the domain or the range error of the [math] module.  An
    input with a [^] can also give a complex number, [ZeroDivisionError],
    [OverflowError], or the [TypeError] of a function that is given a
    complex number. *)
Theorem pipeline_outcome (X : Extern) (expression : string) :
  exists outcome,
    run X expression = Some outcome
    /\ (evaluation_result (power_free_text expression) outcome
        \/ exists e,
             outcome = inl e /\ (lex_error expression e \/ parse_error e)).
Proof.
  unfold run, calculate_expression.
  destruct (tokenize_expression expression get_compiled_patterns)
    as [[err|tokens]|] eqn:Hlex.
  - eexists. split; [reflexivity|]. right. exists err. split; [reflexivity|].
    left. apply tokenize_loop_error in Hlex as (q & Hq & _ & ->). now exists q.
  - eexists. split; [reflexivity|].
    pose proof (tokens_without_power expression tokens Hlex) as Hfree.
    apply (tokenize_loop_lexical _ _ _ [] tokens) in Hlex; [|constructor].
    pose proof (build_syntax_tree_ok (create_functions_map X)
                  (function_table_keys X) tokens Hlex) as Hparse.
    pose proof (build_syntax_tree_free create_constants_map
                  (create_functions_map X) create_precedence_map
                  create_right_associative_set tokens) as Htree.
    destruct (build_syntax_tree tokens _ _ _ _) as [e|tree]; cbn [bind].
    { right. exists e. split; [reflexivity|]. now right. }
    left. pose proof (well_formed_tree_outcome X tree Hparse) as Heval.
    destruct (power_free_text expression).
    + now rewrite (Htree (Hfree eq_refl)) in Heval.
    + destruct (evaluate_expression_tree _ tree _ _) as [e|v];
        destruct Heval as [H|[_ H]]; [now left|now right|now left|now right].
  - now apply tokenize_expression_ends in Hlex.
Qed.

(** ** Evaluator: when the globals are the tables that were passed *)

(** X9. When the global names [operations] and [functions] are bound to the
    very tables that are passed, as in the [__main__] block, evaluation of
    any node is that of the evaluator that hands both tables down to every
    child. *)
Theorem evaluation_with_matching_globals
  (operations : gmap string binary_behavior)
  (functions : gmap string unary_behavior) (node : Node) :
  evaluate_expression_tree (mkGlobals (Some operations) (Some functions)) node
    operations functions
  = evaluate_with_tables node operations functions.
Proof.
  induction node as [kind value l r IHl IHr] using Node_children_ind.
  assert (Hl : match l with
               | Some n =>
                   evaluate_expression_tree
                     (mkGlobals (Some operations) (Some functions)) n
                     operations functions
               | None => inl AttributeError
               end
               = match l with
                 | Some n => evaluate_with_tables n operations functions
                 | None => inl AttributeError
                 end).
  { destruct l as [n|]; [now apply IHl|reflexivity]. }
  assert (Hr : match r with
               | Some n =>
                   evaluate_expression_tree
                     (mkGlobals (Some operations) (Some functions)) n
                     operations functions
               | None => inl AttributeError
               end
               = match r with
                 | Some n => evaluate_with_tables n operations functions
                 | None => inl AttributeError
                 end).
  { destruct r as [n|]; [now apply IHr|reflexivity]. }
  cbn [evaluate_expression_tree evaluate_with_tables node_type node_left
         node_right node_value].
  destruct (String.eqb kind "NUMBER"); [reflexivity|].
  destruct (String.eqb kind "OPERATOR").
  { unfold evaluate_operator_node.
    cbn [global_functions lookup_global bind node_left node_right node_value].
    now rewrite Hl, Hr. }
  destruct (String.eqb kind "FUNCTION").
  { unfold evaluate_function_node.
    cbn [global_operations lookup_global bind node_left node_value].
    now rewrite Hl. }
  destruct (String.eqb kind "UNARY"); [|reflexivity].
  unfold evaluate_unary_node.
  cbn [global_operations global_functions lookup_global bind node_left
         node_value].
  now rewrite Hl.
Qed.


(** ** Parser: parentheses *)

Section parentheses.

Context {V : Type}.
Variable functions : gmap string V.
Hypothesis function_keys :
  forall s, dict_has functions s = one_of_strings function_keywords s.

Lemma keyword_is_no_parenthesis (s : string) :
  one_of_strings function_keywords s = true -> String.eqb s "(" = false.
Proof using Type.
  intros H%one_of_strings_In.
  destruct H as [<-|[<-|[<-|[<-|[<-|[<-|[<-|[]]]]]]]]; reflexivity.
Qed.

Lemma operator_is_no_parenthesis (s : string) :
  one_of_strings (binary_symbols ++ unary_symbols) s = true ->
  String.eqb s "(" = false.
Proof using Type.
  intros H%one_of_strings_In.
  destruct H as [<-|[<-|[<-|[<-|[<-|[<-|[<-|[]]]]]]]]; reflexivity.
Qed.

(** The loop before an operator is pushed takes no parenthesis away. *)
Lemma reduce_while_can_pop_opens (current : string) (ops ops' : list string)
  (out out' : list Node) :
  one_of_strings (binary_symbols ++ unary_symbols) current = true ->
  reduce_while_can_pop current ops out functions create_precedence_map
    create_right_associative_set = inr (ops', out') ->
  opens ops' = opens ops.
Proof using Type.
  intros Hcur. revert out.
  induction ops as [|top rest IH]; intros out H.
  - cbn in H. now injection H as <- _.
  - cbn [reduce_while_can_pop] in H.
    destruct (can_pop_ok current (top :: rest) Hcur) as (go & Hcan & Hgo).
    rewrite Hcan in H. cbn [bind] in H.
    destruct go; [|now injection H as <- _].
    destruct (Hgo eq_refl) as (top' & rest' & [= <- <-] & Hp).
    destruct (pop_operator_and_create_node (top :: rest) out functions _)
      as [e|[ops1 out1]]; [discriminate|].
    cbn [bind] in H. apply IH in H. cbn [opens]. now rewrite Hp.
Qed.

(** The loop for a closing parenthesis stops at the innermost open one. *)
Lemma reduce_to_parenthesis_opens (ops ops' : list string)
  (out out' : list Node) :
  reduce_to_parenthesis ops out functions create_precedence_map
    = inr (ops', out') ->
  opens ops' = opens ops
  /\ (ops' = [] \/ exists rest, ops' = "(" :: rest).
Proof using Type.
  revert out. induction ops as [|top rest IH]; intros out H.
  - cbn in H. injection H as <- _. auto.
  - cbn [reduce_to_parenthesis] in H.
    destruct (String.eqb_spec top "(") as [-> |Hp].
    + injection H as <- _. split; [reflexivity|]. right. now exists rest.
    + destruct (pop_operator_and_create_node (top :: rest) out functions _)
        as [e|[ops1 out1]]; [discriminate|].
      cbn [bind] in H. apply IH in H as [H1 H2]. split; [|exact H2].
      cbn [opens]. apply String.eqb_neq in Hp. now rewrite Hp.
Qed.

Lemma process_right_parenthesis_opens (ops ops' : list string)
  (out out' : list Node) :
  process_right_parenthesis ops out functions create_precedence_map
    = inr (ops', out') ->
  opens ops = S (opens ops').
Proof using function_keys.
  unfold process_right_parenthesis. intros H.
  destruct (reduce_to_parenthesis ops out functions create_precedence_map)
    as [e|[ops1 out1]] eqn:E; [discriminate|].
  cbn [bind] in H. apply reduce_to_parenthesis_opens in E as [<- Hhead].
  destruct Hhead as [-> |(rest & ->)]; [discriminate|].
  destruct rest as [|func rest']; [now injection H as <- _|].
  rewrite function_keys in H.
  destruct (one_of_strings function_keywords func) eqn:Hf;
    [|now injection H as <- _].
  destruct (pop_node out1) as [e|[a out2]]; [discriminate|].
  cbn [bind] in H. injection H as <- _. cbn [opens String.eqb Ascii.eqb].
  cbn. now rewrite (keyword_is_no_parenthesis func Hf).
Qed.

Lemma reduce_all_opens (ops : list string) (out out' : list Node) :
  reduce_all ops out functions create_precedence_map = inr out' ->
  opens ops = 0.
Proof using Type.
  revert out. induction ops as [|top rest IH]; intros out H; [reflexivity|].
  cbn [reduce_all] in H. cbn [opens].
  destruct (String.eqb top "("); [discriminate|].
  destruct (pop_operator_and_create_node (top :: rest) out functions _)
    as [e|[ops1 out1]]; [discriminate|].
  cbn [bind] in H. now apply IH in H.
Qed.

Lemma process_token_opens (st st' : parser_state) (tok : token) :
  lexical tok ->
  process_token st tok create_constants_map functions create_precedence_map
    create_right_associative_set = inr st' ->
  paren_depth (opens (operator_stack st)) [tok]
  = Some (opens (operator_stack st')).
Proof using function_keys.
  destruct tok as [kind text]. unfold lexical. cbn [fst snd].
  intros Hlex. unfold process_token. cbn [paren_depth].
  destruct Hlex as [[-> (x & Hx)]|[[-> Hk]|[[-> Hk]|[[-> Hk]|[-> Hk]]]]];
    cbn [String.eqb Ascii.eqb Bool.eqb andb]; cbv iota.
  - destruct (create_number_node text) as [e|node]; [discriminate|].
    cbn [bind]. now intros [= <-].
  - intros [= <-]. cbn [operator_stack opens].
    now rewrite (keyword_is_no_parenthesis text Hk).
  - destruct (create_constant_node text _) as [e|node]; [discriminate|].
    cbn [bind]. now intros [= <-].
  - set (value := if should_be_unary _ _ _ _ then _ else _).
    assert (Hvalue : one_of_strings (binary_symbols ++ unary_symbols) value
                     = true).
    { subst value. destruct (should_be_unary _ _ _ _).
      - unfold process_unary_operator. now destruct (String.eqb text "-").
      - apply one_of_strings_In, in_or_app. left.
        now apply one_of_strings_In. }
    destruct (reduce_while_can_pop value _ _ _ _ _) as [e|[ops' out']] eqn:E;
      [discriminate|].
    cbn [bind]. intros [= <-]. cbn [operator_stack opens].
    apply (reduce_while_can_pop_opens _ _ _ _ _ Hvalue) in E.
    now rewrite (operator_is_no_parenthesis value Hvalue), E.
  - apply one_of_strings_In in Hk as [<-|[<-|[]]];
      cbn [String.eqb Ascii.eqb Bool.eqb]; cbv iota.
    + now intros [= <-].
    + destruct (process_right_parenthesis _ _ _ _) as [e|[ops' out']] eqn:E;
        [discriminate|].
      cbn [bind]. intros [= <-]. cbn [operator_stack].
      apply process_right_parenthesis_opens in E. now rewrite E.
Qed.

Lemma paren_depth_cons (depth : nat) (tok : token) (tokens : list token) :
  paren_depth depth (tok :: tokens)
  = match paren_depth depth [tok] with
    | Some depth' => paren_depth depth' tokens
    | None => None
    end.
Proof using Type.
  destruct tok as [kind text]. cbn [paren_depth].
  destruct (String.eqb kind "PAREN" && String.eqb text "("); [reflexivity|].
  destruct (String.eqb kind "PAREN" && String.eqb text ")"); [|reflexivity].
  now destruct depth.
Qed.

Lemma process_tokens_opens (tokens : list token) (st st' : parser_state) :
  Forall lexical tokens ->
  process_tokens st tokens create_constants_map functions
    create_precedence_map create_right_associative_set = inr st' ->
  paren_depth (opens (operator_stack st)) tokens
  = Some (opens (operator_stack st')).
Proof using function_keys.
  intros Hall. revert st.
  induction Hall as [|tok tokens Htok Hall IH]; intros st H.
  - now injection H as <-.
  - cbn [process_tokens] in H.
    destruct (process_token st tok _ _ _ _) as [e|st1] eqn:E; [discriminate|].
    cbn [bind] in H. rewrite paren_depth_cons.
    rewrite (process_token_opens _ _ _ Htok E). now apply IH.
Qed.

Lemma parsed_tokens_balanced (tokens : list token) (tree : Node) :
  Forall lexical tokens ->
  build_syntax_tree tokens create_constants_map functions
    create_precedence_map create_right_associative_set = inr tree ->
  paren_depth 0 tokens = Some 0.
Proof using function_keys.
  intros Hall. unfold build_syntax_tree. intros H.
  destruct (process_tokens initial_state tokens _ _ _ _) as [e|st] eqn:E;
    [discriminate|].
  cbn [bind] in H.
  destruct (reduce_all _ _ _ _) as [e|out] eqn:R; [discriminate|].
  apply reduce_all_opens in R.
  apply (process_tokens_opens _ _ _ Hall) in E. cbn in E. now rewrite R in E.
Qed.

End parentheses.

(** X10. A parse of lexer tokens that succeeds had balanced parentheses:
    every closing parenthesis came after an opening one that was still open,
    and none was left open at the end. *)
Theorem parsed_means_balanced (X : Extern) (tokens : list token)
  (tree : Node) :
  Forall lexical tokens ->
  build_syntax_tree tokens create_constants_map (create_functions_map X)
    create_precedence_map create_right_associative_set = inr tree ->
  paren_depth 0 tokens = Some 0.
Proof.
  apply parsed_tokens_balanced, function_table_keys.
Qed.

Lemma parsed_means_balanced_witness :
  paren_depth 0
    [("PAREN", "("); ("NUMBER", "3"); ("OPERATOR", "+"); ("NUMBER", "5");
     ("PAREN", ")"); ("OPERATOR", "*"); ("NUMBER", "2")] = Some 0.
Proof.
  apply (parsed_means_balanced exact_extern _
           (create_operator_node "*"
              (create_operator_node "+" (number_node 3) (number_node 5))
              (number_node 2))).
  - apply (tokenize_loop_lexical "(3+5)*2" 8 0 []); [constructor|reflexivity].
  - reflexivity.
Defined.

(** ** Parser: how two operators group three operands *)

(** X11. Two binary operators between three number literals: the tree is
    [(a o1 b) o2 c], unless the second operator is the power, or a product
    or quotient after a sum or difference; then it is [a o1 (b o2 c)]. *)
Theorem two_operators_group (X : Extern) (o1 o2 a b c : string)
  (xa xb xc : float) :
  In o1 binary_symbols -> In o2 binary_symbols ->
  py_float a = inr xa -> py_float b = inr xb -> py_float c = inr xc ->
  build_syntax_tree
    [("NUMBER", a); ("OPERATOR", o1); ("NUMBER", b); ("OPERATOR", o2);
     ("NUMBER", c)]
    create_constants_map (create_functions_map X) create_precedence_map
    create_right_associative_set
  = inr (if binds_tighter o1 o2 then
           create_operator_node o1 (number_node xa)
             (create_operator_node o2 (number_node xb) (number_node xc))
         else
           create_operator_node o2
             (create_operator_node o1 (number_node xa) (number_node xb))
             (number_node xc)).
Proof.
  intros H1 H2 Ha Hb Hc. unfold build_syntax_tree.
  destruct H1 as [<-|[<-|[<-|[<-|[<-|[]]]]]];
    destruct H2 as [<-|[<-|[<-|[<-|[<-|[]]]]]];
    parse_number Ha; parse_operator; parse_number Hb; parse_operator;
    parse_number Hc; vm_compute; reflexivity.
Qed.

Lemma two_operators_group_witness :
  build_syntax_tree
    [("NUMBER", "10"); ("OPERATOR", "-"); ("NUMBER", "2.5");
     ("OPERATOR", "-"); ("NUMBER", "3")]
    create_constants_map (create_functions_map exact_extern)
    create_precedence_map create_right_associative_set
  = inr (create_operator_node "-"
           (create_operator_node "-" (number_node 10) (number_node 2.5))
           (number_node 3)).
Proof.
  apply (two_operators_group exact_extern "-" "-" "10" "2.5" "3" 10 2.5 3);
    try reflexivity; simpl; auto.
Defined.

(** ** Parser: parentheses around a whole expression *)

Section redundant_parentheses.

Context {V : Type}.
Variable constants : gmap string float.
Variable functions : gmap string V.
Variable precedence : gmap string Z.
Variable right_associative : gset string.
Hypothesis parenthesis_is_no_function : dict_has functions "(" = false.

Lemma can_pop_top (current top : string) (l1 l2 : list string) :
  can_pop_operator current (top :: l1) precedence right_associative
  = can_pop_operator current (top :: l2) precedence right_associative.
Proof using Type. reflexivity. Qed.

Lemma reduce_while_can_pop_wrapped (current : string) (ops : list string)
  (out : list Node) :
  reduce_while_can_pop current (ops ++ ["("]) out functions precedence
    right_associative
  = match reduce_while_can_pop current ops out functions precedence
            right_associative with
    | inl e => inl e
    | inr (ops', out') => inr (ops' ++ ["("], out')
    end.
Proof using Type.
  revert out. induction ops as [|top rest IH]; intros out; [reflexivity|].
  cbn [app reduce_while_can_pop].
  rewrite (can_pop_top current top (rest ++ ["("]) rest).
  destruct (can_pop_operator current (top :: rest) precedence
              right_associative) as [e|[|]]; cbn [bind]; try reflexivity.
  unfold pop_operator_and_create_node.
  destruct (create_node_for top out functions) as [e|out1]; cbn [bind];
    [reflexivity|apply IH].
Qed.

Lemma reduce_to_parenthesis_wrapped (ops : list string) (out : list Node) :
  reduce_to_parenthesis (ops ++ ["("]) out functions precedence
  = match reduce_to_parenthesis ops out functions precedence with
    | inl e => inl e
    | inr (ops', out') => inr (ops' ++ ["("], out')
    end.
Proof using Type.
  revert out. induction ops as [|top rest IH]; intros out; [reflexivity|].
  cbn [app reduce_to_parenthesis].
  destruct (String.eqb top "("); [reflexivity|].
  unfold pop_operator_and_create_node.
  destruct (create_node_for top out functions) as [e|out1]; cbn [bind];
    [reflexivity|apply IH].
Qed.

Lemma process_right_parenthesis_wrapped (ops ops' : list string)
  (out out' : list Node) :
  process_right_parenthesis ops out functions precedence = inr (ops', out') ->
  process_right_parenthesis (ops ++ ["("]) out functions precedence
  = inr (ops' ++ ["("], out').
Proof using parenthesis_is_no_function.
  unfold process_right_parenthesis. rewrite reduce_to_parenthesis_wrapped.
  destruct (reduce_to_parenthesis ops out functions precedence)
    as [e|[ops1 out1]]; [discriminate|].
  cbn [bind]. destruct ops1 as [|paren ops2]; [discriminate|].
  cbn [app]. destruct ops2 as [|func ops3].
  - intros [= <- <-]. cbn [app]. now rewrite parenthesis_is_no_function.
  - cbn [app]. destruct (dict_has functions func); [|now intros [= <- <-]].
    destruct (pop_node out1) as [e|[a out2]]; [discriminate|].
    cbn [bind]. now intros [= <- <-].
Qed.

(** Once nothing is left open, closing the outer parenthesis does what the
    last loop of the parser does. *)
Lemma reduce_all_wrapped (ops : list string) (out out' : list Node) :
  reduce_all ops out functions precedence = inr out' ->
  reduce_to_parenthesis (ops ++ ["("]) out functions precedence
  = inr (["("], out').
Proof using Type.
  revert out. induction ops as [|top rest IH]; intros out H.
  - now injection H as <-.
  - cbn [reduce_all] in H. cbn [app reduce_to_parenthesis].
    destruct (String.eqb top "("); [discriminate|].
    unfold pop_operator_and_create_node in *.
    destruct (create_node_for top out functions) as [e|out1]; [discriminate|].
    cbn [bind] in *. now apply IH.
Qed.

Lemma should_be_unary_after_parenthesis (kind text : string)
  (value : option string) :
  should_be_unary kind text None value
  = should_be_unary kind text (Some "PAREN") (Some "(").
Proof using Type. reflexivity. Qed.

Lemma process_token_wrapped (s s' t : parser_state) (tok : token) :
  wrapped s t ->
  process_token s tok constants functions precedence right_associative
    = inr s' ->
  exists t',
    process_token t tok constants functions precedence right_associative
      = inr t'
    /\ wrapped s' t'.
Proof using parenthesis_is_no_function.
  destruct s as [out ops pt pv], t as [out_t ops_t pt_t pv_t].
  destruct tok as [kind text].
  intros (Hout & Hops & Hprev). cbn in Hout, Hops, Hprev. subst out_t ops_t.
  assert (Hsign : should_be_unary kind text pt_t pv_t
                  = should_be_unary kind text pt pv).
  { destruct Hprev as [[-> ->]|(-> & -> & ->)]; [reflexivity|].
    symmetry. apply should_be_unary_after_parenthesis. }
  unfold process_token.
  cbn [output_stack operator_stack previous_token_type previous_token_value].
  rewrite Hsign. clear Hsign Hprev.
  destruct (String.eqb kind "NUMBER").
  { destruct (create_number_node text) as [e|node]; [discriminate|].
    cbn [bind]. intros [= <-]. eexists. split; [reflexivity|].
    repeat split. now left. }
  destruct (String.eqb kind "CONSTANT").
  { destruct (create_constant_node text constants) as [e|node];
      [discriminate|].
    cbn [bind]. intros [= <-]. eexists. split; [reflexivity|].
    repeat split. now left. }
  destruct (String.eqb kind "FUNCTION").
  { intros [= <-]. eexists. split; [reflexivity|]. repeat split. now left. }
  destruct (String.eqb kind "OPERATOR").
  { rewrite reduce_while_can_pop_wrapped.
    destruct (reduce_while_can_pop _ ops out _ _ _) as [e|[ops1 out1]];
      [discriminate|].
    cbn [bind]. intros [= <-]. eexists. split; [reflexivity|].
    repeat split. now left. }
  destruct (String.eqb text "(").
  { intros [= <-]. eexists. split; [reflexivity|]. repeat split. now left. }
  destruct (String.eqb text ")").
  { destruct (process_right_parenthesis ops out functions precedence)
      as [e|[ops1 out1]] eqn:E; [discriminate|].
    rewrite (process_right_parenthesis_wrapped _ _ _ _ E).
    cbn [bind]. intros [= <-]. eexists. split; [reflexivity|].
    repeat split. now left. }
  intros [= <-]. eexists. split; [reflexivity|]. repeat split. now left.
Qed.

Lemma process_tokens_wrapped (tokens : list token) (s s' t : parser_state) :
  wrapped s t ->
  process_tokens s tokens constants functions precedence right_associative
    = inr s' ->
  exists t',
    process_tokens t tokens constants functions precedence right_associative
      = inr t'
    /\ wrapped s' t'.
Proof using parenthesis_is_no_function.
  revert s t. induction tokens as [|tok tokens IH]; intros s t Hw H.
  - injection H as <-. now exists t.
  - cbn [process_tokens] in *.
    destruct (process_token s tok _ _ _ _) as [e|s1] eqn:E; [discriminate|].
    destruct (process_token_wrapped _ _ _ _ Hw E) as (t1 & -> & Hw1).
    cbn [bind] in *. now apply (IH s1 t1).
Qed.

Lemma parentheses_around (tokens : list token) (tree : Node) :
  build_syntax_tree tokens constants functions precedence right_associative
    = inr tree ->
  build_syntax_tree (("PAREN", "(") :: tokens ++ [("PAREN", ")")])
    constants functions precedence right_associative
  = inr tree.
Proof using parenthesis_is_no_function.
  unfold build_syntax_tree. intros H.
  destruct (process_tokens initial_state tokens _ _ _ _) as [e|s'] eqn:E;
    [discriminate|].
  cbn [bind] in H.
  destruct (reduce_all (operator_stack s') (output_stack s') functions
              precedence) as [e|out] eqn:R; [discriminate|].
  cbn [bind] in H.
  cbn [process_tokens].
  change (process_token initial_state ("PAREN", "(") constants functions
            precedence right_associative)
    with (inr (mkState [] ["("] (Some "PAREN") (Some "(")) : result _).
  cbn [bind]. rewrite process_tokens_snoc.
  assert (Hw : wrapped initial_state
                 (mkState [] ["("] (Some "PAREN") (Some "("))).
  { repeat split. right. repeat split. }
  destruct (process_tokens_wrapped _ _ _ _ Hw E) as (t' & -> & Ht).
  cbn [bind]. destruct t' as [out_t ops_t pt pv].
  destruct Ht as (Hout & Hops & _). cbn in Hout, Hops. subst out_t ops_t.
  unfold process_token. cbn [String.eqb Ascii.eqb Bool.eqb]. cbv iota.
  cbn [output_stack operator_stack].
  unfold process_right_parenthesis.
  rewrite (reduce_all_wrapped _ _ _ R). cbn [bind].
  cbn [output_stack operator_stack reduce_all]. exact H.
Qed.

End redundant_parentheses.

(** X12. Parentheses around a whole expression change nothing: when
    the tokens of an expression parse to a tree, the same tokens between an
    opening and a closing parenthesis parse to the same tree. *)
Theorem parentheses_keep_the_tree (X : Extern) (tokens : list token)
  (tree : Node) :
  build_syntax_tree tokens create_constants_map (create_functions_map X)
    create_precedence_map create_right_associative_set = inr tree ->
  build_syntax_tree (("PAREN", "(") :: tokens ++ [("PAREN", ")")])
    create_constants_map (create_functions_map X) create_precedence_map
    create_right_associative_set
  = inr tree.
Proof.
  apply parentheses_around. now rewrite function_table_keys.
Qed.

Lemma parentheses_keep_the_tree_witness :
  build_syntax_tree
    [("PAREN", "("); ("OPERATOR", "-"); ("NUMBER", "5"); ("PAREN", ")")]
    create_constants_map (create_functions_map exact_extern)
    create_precedence_map create_right_associative_set
  = inr minus_five.
Proof.
  exact (parentheses_keep_the_tree exact_extern
           [("OPERATOR", "-"); ("NUMBER", "5")] minus_five eq_refl).
Defined.

(** ** Parser: operands and binary operators *)

Section operand_count.

Context {V : Type}.
Variable functions : gmap string V.
Hypothesis function_keys :
  forall s, dict_has functions s = one_of_strings function_keywords s.

Lemma create_node_for_pending (operator : string) (out out' : list Node) :
  String.eqb operator "(" = false ->
  create_node_for operator out functions = inr out' ->
  Z.of_nat (length out')
  = (Z.of_nat (length out) - if binary_on_stack operator then 1 else 0)%Z.
Proof using function_keys.
  intros Hp. unfold create_node_for, binary_on_stack.
  rewrite function_keys, Hp.
  assert (Hu : one_of_strings unary_symbols operator
               = String.eqb operator "u-" || String.eqb operator "u+").
  { unfold one_of_strings, unary_symbols. cbn [existsb].
    now rewrite orb_false_r. }
  rewrite Hu.
  destruct (one_of_strings function_keywords operator).
  - destruct out as [|a out]; [discriminate|].
    cbn [pop_node bind negb andb]. intros [= <-]. cbn [length]. lia.
  - destruct (String.eqb operator "u-" || String.eqb operator "u+").
    + destruct out as [|a out]; [discriminate|].
      cbn [pop_node bind negb andb]. intros [= <-]. cbn [length]. lia.
    + destruct out as [|b [|a out]]; try discriminate.
      cbn [pop_node bind negb andb]. intros [= <-]. cbn [length]. lia.
Qed.

Lemma pop_pending (top : string) (rest ops1 : list string)
  (out out1 : list Node) (precedence : gmap string Z) :
  String.eqb top "(" = false ->
  pop_operator_and_create_node (top :: rest) out functions precedence
    = inr (ops1, out1) ->
  pending rest out1 = pending (top :: rest) out.
Proof using function_keys.
  intros Hp. unfold pop_operator_and_create_node.
  destruct (create_node_for top out functions) as [e|out'] eqn:E;
    [discriminate|].
  cbn [bind]. intros [= _ <-].
  apply (create_node_for_pending _ _ _ Hp) in E.
  unfold pending. cbn [binaries]. destruct (binary_on_stack top); lia.
Qed.

Lemma reduce_while_can_pop_pending (current : string) (ops ops' : list string)
  (out out' : list Node) :
  one_of_strings (binary_symbols ++ unary_symbols) current = true ->
  reduce_while_can_pop current ops out functions create_precedence_map
    create_right_associative_set = inr (ops', out') ->
  pending ops' out' = pending ops out.
Proof using function_keys.
  intros Hcur. revert out.
  induction ops as [|top rest IH]; intros out H.
  - cbn in H. now injection H as <- <-.
  - cbn [reduce_while_can_pop] in H.
    destruct (can_pop_ok current (top :: rest) Hcur) as (go & Hcan & Hgo).
    rewrite Hcan in H. cbn [bind] in H.
    destruct go; [|now injection H as <- <-].
    destruct (Hgo eq_refl) as (top' & rest' & [= <- <-] & Hp).
    destruct (pop_operator_and_create_node (top :: rest) out functions _)
      as [e|[ops1 out1]] eqn:E; [discriminate|].
    cbn [bind] in H. apply IH in H. rewrite H.
    exact (pop_pending _ _ _ _ _ _ Hp E).
Qed.

Lemma reduce_to_parenthesis_pending (ops ops' : list string)
  (out out' : list Node) :
  reduce_to_parenthesis ops out functions create_precedence_map
    = inr (ops', out') ->
  pending ops' out' = pending ops out.
Proof using function_keys.
  revert out. induction ops as [|top rest IH]; intros out H.
  - cbn in H. now injection H as <- <-.
  - cbn [reduce_to_parenthesis] in H.
    destruct (String.eqb top "(") eqn:Hp; [now injection H as <- <-|].
    destruct (pop_operator_and_create_node (top :: rest) out functions _)
      as [e|[ops1 out1]] eqn:E; [discriminate|].
    cbn [bind] in H. apply IH in H. rewrite H.
    exact (pop_pending _ _ _ _ _ _ Hp E).
Qed.

Lemma process_right_parenthesis_pending (ops ops' : list string)
  (out out' : list Node) :
  process_right_parenthesis ops out functions create_precedence_map
    = inr (ops', out') ->
  pending ops' out' = pending ops out.
Proof using function_keys.
  unfold process_right_parenthesis. intros H.
  destruct (reduce_to_parenthesis ops out functions create_precedence_map)
    as [e|[ops1 out1]] eqn:E; [discriminate|].
  cbn [bind] in H.
  pose proof (reduce_to_parenthesis_opens _ _ _ _ _ E) as [_ Hhead].
  apply reduce_to_parenthesis_pending in E. rewrite <- E. clear E.
  destruct Hhead as [-> |(rest & ->)]; [discriminate|].
  assert (Hparen : pending ("(" :: rest) out1 = pending rest out1)
    by reflexivity.
  rewrite Hparen. clear Hparen.
  destruct rest as [|func rest']; [now injection H as <- <-|].
  rewrite function_keys in H.
  destruct (one_of_strings function_keywords func) eqn:Hf;
    [|now injection H as <- <-].
  destruct out1 as [|a out2]; [discriminate|].
  cbn [pop_node bind] in H. injection H as <- <-.
  unfold pending. cbn [binaries length]. unfold binary_on_stack.
  rewrite Hf, andb_false_r. cbn. lia.
Qed.

Lemma reduce_all_pending (ops : list string) (out out' : list Node) :
  reduce_all ops out functions create_precedence_map = inr out' ->
  Z.of_nat (length out') = pending ops out.
Proof using function_keys.
  revert out. induction ops as [|top rest IH]; intros out H.
  - injection H as <-. unfold pending. cbn. lia.
  - cbn [reduce_all] in H.
    destruct (String.eqb top "(") eqn:Hp; [discriminate|].
    destruct (pop_operator_and_create_node (top :: rest) out functions _)
      as [e|[ops1 out1]] eqn:E; [discriminate|].
    cbn [bind] in H. apply IH in H. rewrite H.
    exact (pop_pending _ _ _ _ _ _ Hp E).
Qed.

Lemma pushed_operator_is_binary (text : string) :
  one_of_strings binary_symbols text = true -> binary_on_stack text = true.
Proof using Type.
  intros H%one_of_strings_In.
  destruct H as [<-|[<-|[<-|[<-|[<-|[]]]]]]; reflexivity.
Qed.

Lemma process_token_pending (st st' : parser_state) (tok : token) :
  lexical tok ->
  process_token st tok create_constants_map functions create_precedence_map
    create_right_associative_set = inr st' ->
  pending (operator_stack st') (output_stack st')
  = (pending (operator_stack st) (output_stack st)
     + token_surplus (previous_token_type st) (previous_token_value st) tok)%Z.
Proof using function_keys.
  destruct tok as [kind text]. unfold lexical, token_surplus. cbn [fst snd].
  intros Hlex. unfold process_token.
  destruct Hlex as [[-> (x & Hx)]|[[-> Hk]|[[-> Hk]|[[-> Hk]|[-> Hk]]]]];
    cbn [String.eqb Ascii.eqb Bool.eqb andb orb]; cbv iota.
  - destruct (create_number_node text) as [e|node]; [discriminate|].
    cbn [bind]. intros [= <-]. unfold pending. cbn [output_stack
      operator_stack length]. lia.
  - intros [= <-]. unfold pending. cbn [output_stack operator_stack binaries].
    unfold binary_on_stack. rewrite Hk, andb_false_r. cbn. lia.
  - destruct (create_constant_node text _) as [e|node]; [discriminate|].
    cbn [bind]. intros [= <-]. unfold pending. cbn [output_stack
      operator_stack length]. lia.
  - destruct (should_be_unary "OPERATOR" text _ _) eqn:Hsign.
    + assert (Hvalue : one_of_strings (binary_symbols ++ unary_symbols)
                         (process_unary_operator text) = true).
      { unfold process_unary_operator. now destruct (String.eqb text "-"). }
      destruct (reduce_while_can_pop _ _ _ _ _ _) as [e|[ops' out']] eqn:E;
        [discriminate|].
      cbn [bind]. intros [= <-]. cbn [output_stack operator_stack negb].
      apply (reduce_while_can_pop_pending _ _ _ _ _ Hvalue) in E.
      rewrite <- E. unfold pending. cbn [binaries].
      assert (Hb : binary_on_stack (process_unary_operator text) = false).
      { unfold process_unary_operator. now destruct (String.eqb text "-"). }
      rewrite Hb. lia.
    + assert (Hvalue : one_of_strings (binary_symbols ++ unary_symbols) text
                       = true).
      { apply one_of_strings_In, in_or_app. left.
        now apply one_of_strings_In. }
      destruct (reduce_while_can_pop _ _ _ _ _ _) as [e|[ops' out']] eqn:E;
        [discriminate|].
      cbn [bind]. intros [= <-]. cbn [output_stack operator_stack negb].
      apply (reduce_while_can_pop_pending _ _ _ _ _ Hvalue) in E.
      rewrite <- E. unfold pending. cbn [binaries].
      rewrite (pushed_operator_is_binary text Hk). lia.
  - apply one_of_strings_In in Hk as [<-|[<-|[]]];
      cbn [String.eqb Ascii.eqb Bool.eqb]; cbv iota.
    + intros [= <-]. unfold pending. cbn. lia.
    + destruct (process_right_parenthesis _ _ _ _) as [e|[ops' out']] eqn:E;
        [discriminate|].
      cbn [bind]. intros [= <-]. cbn [output_stack operator_stack].
      apply process_right_parenthesis_pending in E. lia.
Qed.

(** A sign is read the same after the recorded previous token and after the
    token as the lexer made it. *)
Lemma sign_after_recorded (st st' : parser_state) (tok next : token) :
  process_token st tok create_constants_map functions create_precedence_map
    create_right_associative_set = inr st' ->
  token_surplus (previous_token_type st') (previous_token_value st') next
  = token_surplus (Some tok.1) (Some tok.2) next.
Proof using Type.
  destruct tok as [kind text]. intros H.
  apply process_token_previous in H as [Htype Hvalue]. cbn [fst snd].
  unfold token_surplus, should_be_unary. rewrite Htype.
  destruct (String.eqb_spec kind "OPERATOR") as [-> |Hk].
  - reflexivity.
  - now rewrite (Hvalue Hk).
Qed.

Lemma process_tokens_pending (tokens : list token) (st st' : parser_state) :
  Forall lexical tokens ->
  process_tokens st tokens create_constants_map functions
    create_precedence_map create_right_associative_set = inr st' ->
  pending (operator_stack st') (output_stack st')
  = (pending (operator_stack st) (output_stack st)
     + operand_surplus (previous_token_type st) (previous_token_value st)
         tokens)%Z.
Proof using function_keys.
  intros Hall. revert st.
  induction Hall as [|tok tokens Htok Hall IH]; intros st H.
  - injection H as <-. cbn. lia.
  - cbn [process_tokens] in H.
    destruct (process_token st tok _ _ _ _) as [e|st1] eqn:E; [discriminate|].
    cbn [bind] in H. apply IH in H. rewrite H.
    rewrite (process_token_pending _ _ _ Htok E). cbn [operand_surplus].
    assert (Hnext : operand_surplus (previous_token_type st1)
                      (previous_token_value st1) tokens
                    = operand_surplus (Some tok.1) (Some tok.2) tokens).
    { destruct tokens as [|next tokens']; [reflexivity|].
      cbn [operand_surplus]. now rewrite (sign_after_recorded _ _ _ next E). }
    rewrite Hnext. lia.
Qed.

Lemma parsed_tokens_surplus (tokens : list token) (tree : Node) :
  Forall lexical tokens ->
  build_syntax_tree tokens create_constants_map functions
    create_precedence_map create_right_associative_set = inr tree ->
  operand_surplus None None tokens = 1%Z.
Proof using function_keys.
  intros Hall. unfold build_syntax_tree. intros H.
  destruct (process_tokens initial_state tokens _ _ _ _) as [e|st] eqn:E;
    [discriminate|].
  cbn [bind] in H.
  destruct (reduce_all _ _ _ _) as [e|out] eqn:R; [discriminate|].
  cbn [bind] in H. apply reduce_all_pending in R.
  apply (process_tokens_pending _ _ _ Hall) in E.
  cbn [initial_state operator_stack output_stack previous_token_type
         previous_token_value] in E.
  destruct out as [|node [|node' out]]; try discriminate.
  rewrite E in R. unfold pending in R. cbn in R. lia.
Qed.

End operand_count.

(** X13. A parse of lexer tokens that succeeds had exactly one operand more
    than binary operators, where an operand is a NUMBER or a CONSTANT and a
    binary operator is an OPERATOR token that is not read as a sign. *)
Theorem parsed_means_one_more_operand (X : Extern) (tokens : list token)
  (tree : Node) :
  Forall lexical tokens ->
  build_syntax_tree tokens create_constants_map (create_functions_map X)
    create_precedence_map create_right_associative_set = inr tree ->
  operand_surplus None None tokens = 1%Z.
Proof.
  apply parsed_tokens_surplus, function_table_keys.
Qed.

Lemma parsed_means_one_more_operand_witness :
  operand_surplus None None
    [("OPERATOR", "-"); ("NUMBER", "5"); ("OPERATOR", "+"); ("NUMBER", "3")]
  = 1%Z.
Proof.
  apply (parsed_means_one_more_operand exact_extern _
           (create_operator_node "+" minus_five (number_node 3))).
  - apply (tokenize_loop_lexical "-5 + 3" 7 0 []); [constructor|reflexivity].
  - reflexivity.
Defined.

(** ** Tree printer *)

Lemma length_spaces (level : nat) : String.length (spaces level) = level.
Proof. induction level as [|n IH]; simpl; [reflexivity|]. now rewrite IH. Qed.

Lemma begins_with_spaces (n k : nat) (line : string) :
  begins_with (spaces (n + k)) line = true ->
  begins_with (spaces n) line = true.
Proof.
  revert line. induction n as [|n IH]; intros line; [reflexivity|].
  cbn [Nat.add spaces begins_with]. destruct line as [|c line]; [discriminate|].
  intros [Hc H]%andb_prop. rewrite Hc. now apply IH.
Qed.

Lemma begins_with_app (a b : string) : begins_with a (a +:+ b) = true.
Proof.
  induction a as [|c a IH]; [reflexivity|]. rewrite app_cons.
  cbn [begins_with]. now rewrite Ascii.eqb_refl, IH.
Qed.

Lemma printed_well_formed (float_str : float -> string)
  (complex_str : float -> float -> string) (node : Node) :
  forall level,
    well_formed node = true ->
    exists lines,
      print_tree_structure float_str complex_str node level = (lines, None)
      /\ length lines = node_count node
      /\ Forall (fun line => begins_with (spaces level) line = true) lines.
Proof.
  induction node as [kind value l r IHl IHr] using Node_children_ind.
  intros level Hwf.
  assert (Hchild : forall n,
            well_formed n = true -> (l = Some n \/ r = Some n) ->
            exists lines,
              print_tree_structure float_str complex_str n
                (String.length (spaces level) + 2) = (lines, None)
              /\ length lines = node_count n
              /\ Forall (fun line => begins_with (spaces level) line = true)
                   lines).
  { intros n Hn Hin.
    assert (H : exists lines,
              print_tree_structure float_str complex_str n (level + 2)
              = (lines, None)
              /\ length lines = node_count n
              /\ Forall (fun line =>
                           begins_with (spaces (level + 2)) line = true)
                   lines)
      by (destruct Hin as [Hin|Hin]; [now apply IHl|now apply IHr]).
    destruct H as (lines & Hp & Hlen & Hall).
    exists lines. rewrite length_spaces. repeat split; auto.
    eapply Forall_impl; [exact Hall|].
    intros line. apply begins_with_spaces. }
  destruct (well_formed_cases _ Hwf)
    as [(x & H)
       |[(symbol & a & b & H & Hs & Ha & Hb)
        |[(symbol & a & H & Hs & Ha)|(symbol & a & H & Hs & Ha)]]];
    rewrite H; injection H as _ _ Hl Hr.
  - eexists. split; [reflexivity|]. split; [reflexivity|].
    constructor; [|constructor]. apply begins_with_app.
  - destruct (Hchild a Ha (or_introl Hl)) as (la & Hpa & Hlena & Halla).
    destruct (Hchild b Hb (or_intror Hr)) as (lb & Hpb & Hlenb & Hallb).
    cbn [print_tree_structure create_operator_node node_type node_left
           node_right node_value String.eqb Ascii.eqb Bool.eqb].
    cbv iota. unfold print_operator_node.
    cbn [node_left node_right node_value]. rewrite Hpa, Hpb.
    unfold out_then, out_line. cbn [fst snd app].
    eexists. split; [reflexivity|]. split.
    + cbn [length node_count create_operator_node]. rewrite length_app. lia.
    + constructor; [apply begins_with_app|].
      apply Forall_app. now split.
  - destruct (Hchild a Ha (or_introl Hl)) as (la & Hpa & Hlena & Halla).
    cbn [print_tree_structure create_function_node node_type node_left
           node_right node_value String.eqb Ascii.eqb Bool.eqb].
    cbv iota. unfold print_function_node.
    cbn [node_left node_value]. rewrite Hpa.
    unfold out_then, out_line. cbn [fst snd app].
    eexists. split; [reflexivity|]. split.
    + cbn [length node_count create_function_node]. lia.
    + constructor; [apply begins_with_app|exact Halla].
  - destruct (Hchild a Ha (or_introl Hl)) as (la & Hpa & Hlena & Halla).
    cbn [print_tree_structure create_unary_node node_type node_left
           node_right node_value String.eqb Ascii.eqb Bool.eqb].
    cbv iota. unfold print_unary_node.
    cbn [node_left node_value]. rewrite Hpa.
    unfold out_then, out_line. cbn [fst snd app].
    eexists. split; [reflexivity|]. split.
    + cbn [length node_count create_unary_node]. lia.
    + constructor; [apply begins_with_app|exact Halla].
Qed.

(** X14. The printer, on a well-formed tree, raises nothing and prints one
    line for each node, every line indented by at least the level it was
    called with. *)
Theorem printer_outline (float_str : float -> string)
  (complex_str : float -> float -> string) (node : Node) (level : nat) :
  well_formed node = true ->
  exists lines,
    print_tree_structure float_str complex_str node level = (lines, None)
    /\ length lines = node_count node
    /\ Forall (fun line => begins_with (spaces level) line = true) lines.
Proof. intros H. now apply printed_well_formed. Qed.

Lemma printer_outline_witness :
  exists lines,
    print_tree_structure (fun _ => "?") (fun _ _ => "?") two_plus_three 4
    = (lines, None)
    /\ length lines = node_count two_plus_three
    /\ Forall (fun line => begins_with (spaces 4) line = true) lines.
Proof.
  exact (printer_outline (fun _ => "?") (fun _ _ => "?") two_plus_three 4
           eq_refl).
Defined.

(** ** A number literal alone *)

Lemma star_match_run {A : Type} (member : ascii -> bool) (d rest : string)
  (k : string -> option A) (x : A) :
  str_forall member d = true ->
  (rest = "" \/ exists c r, rest = String c r /\ member c = false) ->
  k rest = Some x ->
  star_match member (d +:+ rest) k = Some x.
Proof.
  intros Hd Hrest Hk. induction d as [|c d IH].
  - rewrite app_empty_l.
    destruct Hrest as [-> |(c & r & -> & Hc)]; cbn [star_match];
      [exact Hk|now rewrite Hc].
  - cbn [str_forall] in Hd. apply andb_prop in Hd as [Hc Hd].
    rewrite app_cons. cbn [star_match]. now rewrite Hc, (IH Hd).
Qed.

(** The number pattern takes the whole of a decimal literal. *)
Lemma number_pattern_takes_all (v : string) :
  re_lang number_pattern v -> re_match number_pattern v Some = Some "".
Proof.
  intros (d1 & v2 & -> & [Ht1 Hd1] & Hopt).
  destruct d1 as [|c1 d1]; [discriminate|].
  cbn [str_forall] in Hd1. apply andb_prop in Hd1 as [Hc1 Hd1].
  rewrite app_cons. unfold number_pattern. cbn [re_match]. rewrite Hc1.
  destruct Hopt as [-> |(dot & d2 & -> & -> & Ht2 & Hd2)].
  - apply star_match_run; [exact Hd1|now left|reflexivity].
  - apply star_match_run; [exact Hd1|right; now exists "."%char, d2|].
    destruct d2 as [|c2 d2]; [discriminate|].
    cbn [str_forall] in Hd2. apply andb_prop in Hd2 as [Hc2 Hd2].
    change ("." +:+ String c2 d2) with (String "." (String c2 d2)).
    cbn [lit_match Ascii.eqb Bool.eqb]. cbv iota. rewrite Hc2.
    now rewrite (star_match_all _ _ Hd2).
Qed.

Lemma literal_is_one_token (v : string) :
  re_lang number_pattern v ->
  tokenize_expression v get_compiled_patterns = Some (inr [("NUMBER", v)]).
Proof.
  intros Hv. pose proof (number_pattern_takes_all v Hv) as Hre.
  assert (Hne : (0 <? String.length v) = true).
  { destruct Hv as (d1 & v2 & -> & [Ht1 _] & _). now destruct d1. }
  assert (Hm : match_token_at_position v 0 get_compiled_patterns
               = Some (Some "NUMBER", v, String.length v)).
  { unfold get_compiled_patterns, create_token_patterns. simpl map.
    cbn [match_token_at_position]. unfold pattern_match.
    cbn [str_drop]. rewrite Hre. cbn [String.length].
    now rewrite Nat.sub_0_r, str_take_all. }
  unfold tokenize_expression.
  rewrite tokenize_loop_step, Hne, Hm. cbn [token_type_truthy str_truthy app].
  destruct (String.length v) as [|n] eqn:Hlen; [discriminate|].
  rewrite tokenize_loop_step, Hlen. now rewrite Nat.ltb_irrefl.
Qed.

(** X15. A decimal literal alone, digits with an optional point and more
    digits, is lexed as one NUMBER token that holds the whole text, and goes
    through the whole pipeline to the float that [float] makes of its
    text. *)
Theorem literal_evaluates_to_its_float (X : Extern) (v : string) :
  re_lang number_pattern v ->
  tokenize_expression v get_compiled_patterns = Some (inr [("NUMBER", v)])
  /\ exists x, py_float v = inr x /\ run X v = Some (inr (VFloat x)).
Proof.
  intros Hv. split; [exact (literal_is_one_token v Hv)|].
  destruct (number_text_parses v Hv) as (x & Hx).
  exists x. split; [exact Hx|].
  unfold run, calculate_expression. rewrite (literal_is_one_token v Hv).
  unfold build_syntax_tree. cbn [process_tokens].
  rewrite (process_token_number _ _ _ _ _ _ _ Hx). reflexivity.
Qed.

Lemma literal_evaluates_to_its_float_witness :
  tokenize_expression "12.75" get_compiled_patterns
  = Some (inr [("NUMBER", "12.75")])
  /\ exists x,
       py_float "12.75" = inr x
       /\ run exact_extern "12.75" = Some (inr (VFloat x)).
Proof.
  apply (literal_evaluates_to_its_float exact_extern "12.75").
  exists "12", ".75". repeat split. right. exists ".", "75". repeat split.
Defined.
